(** * The canvas editor component: undo/redo history over a drawing surface

    A shallow embedding of the [Canvas] React component (the third document
    of [src/Dockerfile]; it is mounted once by [src/src/App.tsx] with constant
    props).  The component keeps three pieces of React state, [canvas],
    [history] and [historyIndex], and talks to a fabric.js canvas.

    What is modelled, and how:
    - fabric objects live in a heap and are named by their location, so that
      object identity and aliasing between the live surface and the stored
      snapshots are visible;
    - every function of the component is a function of the render it was
      created in (the values of [canvas], [history] and [historyIndex] it
      closes over) and of the world;
    - [setCanvas], [setHistory] and [setHistoryIndex] enqueue a value; the
      queue is applied when the running event callback returns, the last
      value written to a state variable winning;
    - the fabric canvas calls the registered listeners synchronously from
      [add] and [remove], and [getObjects] hands out a copy of its object
      list;
    - a shape is the record of its scalar attributes, which is what
      [fabric.util.object.clone] copies into a new object;
    - the background image is the one [src/src/App.tsx] passes; fetched
      without CORS from another origin, it taints the canvas that draws
      it, on which [toDataURL] throws;
    - the user's gestures are those on one object: a click on it, a drag
      of it, a click on the background.  fabric's multiple selection,
      during which the members of the active group carry coordinates
      relative to the group, is not modelled; what is stated about undo is
      stated on the shapes the snapshots hold, which a capture made during
      such a selection can make differ from what the surface showed. *)

From Stdlib Require Import ZArith Lia String.
From stdpp Require Import base list option.

(** ** Shapes and the object heap *)

Inductive ShapeType := rect | circle.

Record Shape := mkShape {
  s_type : ShapeType;
  s_left : Z;
  s_top : Z;
  s_width : Z;
  s_height : Z;
  s_radius : Z;
  s_fill : string;
  s_stroke : string;
  s_strokeWidth : Z
}.

(** [new fabric.Rect({...})] in [addRectangle]. *)
Definition newRect : Shape :=
  mkShape rect 100 100 100 100 0 "transparent" "black" 2.

(** [new fabric.Circle({...})] in [addCircle]; fabric derives the width and
    the height of a circle from its radius. *)
Definition newCircle : Shape :=
  mkShape circle 100 100 (2 * 50) (2 * 50) 50 "transparent" "black" 2.

#[global] Instance Shape_inhabited : Inhabited Shape := populate newRect.

(** A fabric object reference. *)
Definition loc := nat.

(** ** Component state *)

(** [interface HistoryState]. *)
Record HistoryState := mkHistoryState {
  objects : list loc;
  timestamp : Z
}.

(** The values one render of the component closes over.  [canvas] is the
    [useState<fabric.Canvas | null>] cell: the component creates a single
    fabric canvas, so the cell either is [null] ([false]) or holds that
    canvas ([true]). *)
Record Env := mkEnv {
  canvas : bool;
  history : list HistoryState;
  historyIndex : Z
}.

(** [useState(null)], [useState([])], [useState(-1)]. *)
Definition initialState : Env := mkEnv false [] (-1).

(** State updates enqueued by the running callback. *)
Record Updates := mkUpdates {
  q_canvas : option bool;
  q_history : option (list HistoryState);
  q_historyIndex : option Z
}.

Definition noUpdates : Updates := mkUpdates None None None.

(** The fabric canvas: its object list and its active object. *)
Record Fabric := mkFabric {
  _objects : list loc;
  _activeObject : option loc
}.

Record World := mkWorld {
  heap : list Shape;           (* fabric objects, by location *)
  surface : option Fabric;     (* [fabricCanvas], once the init effect built it *)
  onLoad : option Env;         (* pending [fromURL] callback and its render *)
  listeners : option Env;      (* render of the installed object:* listeners *)
  state : Env;                 (* committed React state *)
  queued : Updates;            (* updates of the running callback *)
  clock : Z;                   (* [Date.now()] *)
  downloads : nat;             (* [link.click()] calls so far *)
  background : option string;  (* URL of [fabricCanvas.backgroundImage] *)
  uncaught : nat               (* exceptions thrown out of [exportCanvas] *)
}.

Definition set_heap (h : list Shape) (w : World) : World :=
  mkWorld h (surface w) (onLoad w) (listeners w) (state w) (queued w)
          (clock w) (downloads w) (background w) (uncaught w).

Definition set_surface (f : option Fabric) (w : World) : World :=
  mkWorld (heap w) f (onLoad w) (listeners w) (state w) (queued w)
          (clock w) (downloads w) (background w) (uncaught w).

Definition set_queued (q : Updates) (w : World) : World :=
  mkWorld (heap w) (surface w) (onLoad w) (listeners w) (state w) q
          (clock w) (downloads w) (background w) (uncaught w).

(** ** The background image *)

(** [BACKGROUND_IMAGE] of [src/src/App.tsx], the [backgroundImage] prop of
    the one [Canvas] it mounts. *)
Definition BACKGROUND_IMAGE : string := "https://picsum.photos/800/600".

(** Whether a canvas that drew the image of [url], fetched without CORS
    as [fabric.Image.fromURL(url, callback)] does when it gets no
    [crossOrigin] option, still is origin-clean.  A relative or [data:]
    URL is of the page's own origin; an absolute [http(s)] URL is taken to
    be of another origin, as [BACKGROUND_IMAGE] is of whatever serves the
    page. *)
Definition originClean (url : string) : bool :=
  negb (String.prefix "http://" url || String.prefix "https://" url).

(** The canvas is tainted: [canvas.toDataURL] throws a [SecurityError]. *)
Definition tainted (w : World) : bool :=
  match background w with
  | Some url => negb (originClean url)
  | None => false
  end.

(** [fabricCanvas.setBackgroundImage(img, ...)], [img] being the image of
    [url]. *)
Definition setBackgroundImage (url : string) (w : World) : World :=
  mkWorld (heap w) (surface w) (onLoad w) (listeners w) (state w) (queued w)
          (clock w) (downloads w) (Some url) (uncaught w).

(** ** JavaScript arrays *)

(** [l.slice(0, e)]: a negative end counts from the end of the array. *)
Definition slice0 {A} (l : list A) (e : Z) : list A :=
  let len := Z.of_nat (length l) in
  let k := if (e <? 0)%Z then Z.max (len + e) 0 else Z.min e len in
  take (Z.to_nat k) l.

(** [l[i]]: [undefined] out of range. *)
Definition at_index {A} (l : list A) (i : Z) : option A :=
  if (i <? 0)%Z then None else l !! Z.to_nat i.

(** [l.indexOf(x)]. *)
Fixpoint indexOf (x : loc) (l : list loc) : option nat :=
  match l with
  | [] => None
  | y :: l' => if decide (y = x) then Some 0 else S <$> indexOf x l'
  end.

(** ** State setters *)

Definition setCanvas (w : World) : World :=
  set_queued (mkUpdates (Some true) (q_history (queued w))
                        (q_historyIndex (queued w))) w.

Definition setHistory (h : list HistoryState) (w : World) : World :=
  set_queued (mkUpdates (q_canvas (queued w)) (Some h)
                        (q_historyIndex (queued w))) w.

Definition setHistoryIndex (i : Z) (w : World) : World :=
  set_queued (mkUpdates (q_canvas (queued w)) (q_history (queued w))
                        (Some i)) w.

(** ** The fabric canvas *)

Definition getObjects (w : World) : list loc :=
  match surface w with Some f => _objects f | None => [] end.

Definition getActiveObject (w : World) : option loc :=
  surface w ≫= _activeObject.

(** [fabric.util.object.clone(obj)]: a new object that carries the
    properties of [obj]. *)
Definition clone (obj : loc) (w : World) : loc * World :=
  (length (heap w), set_heap (heap w ++ [heap w !!! obj]) w).

(** [objs.map(obj => fabric.util.object.clone(obj))]. *)
Fixpoint cloneAll (objs : list loc) (w : World) : list loc * World :=
  match objs with
  | [] => ([], w)
  | obj :: rest =>
      let '(c, w1) := clone obj w in
      let '(cs, w2) := cloneAll rest w1 in
      (c :: cs, w2)
  end.

(** [saveState], as created by the render [env]. *)
Definition saveState (env : Env) (w : World) : World :=
  if canvas env then
    let '(objs, w1) := cloneAll (getObjects w) w in
    let newState := mkHistoryState objs (clock w1) in
    let newHistory := slice0 (history env) (historyIndex env + 1) in
    setHistoryIndex (Z.of_nat (length newHistory))
      (setHistory (newHistory ++ [newState]) w1)
  else w.

Inductive CanvasEvent := ObjectModified | ObjectAdded | ObjectRemoved.

(** The listeners the wiring effect of render [env] installs;
    [handleModification] is [saveState]. *)
Definition listener (env : Env) (ev : CanvasEvent) (target : option loc)
    (w : World) : World :=
  match ev with
  | ObjectModified | ObjectAdded =>
      match target with
      | Some _ => saveState env w
      | None => w
      end
  | ObjectRemoved => saveState env w
  end.

(** [canvas.fire(ev, {target})]. *)
Definition fire (ev : CanvasEvent) (target : option loc) (w : World) : World :=
  match listeners w with
  | Some env => listener env ev target w
  | None => w
  end.

(** [canvas.add(obj)]: push the object, then fire [object:added]. *)
Definition canvas_add (obj : loc) (w : World) : World :=
  match surface w with
  | Some f =>
      fire ObjectAdded (Some obj)
        (set_surface (Some (mkFabric (_objects f ++ [obj]) (_activeObject f))) w)
  | None => w
  end.

(** [canvas.remove(obj)]: splice the object out if it is on the canvas,
    drop it as active object, then fire [object:removed]; nothing happens,
    and nothing is fired, when the object is not on the canvas. *)
Definition canvas_remove (obj : loc) (w : World) : World :=
  match surface w with
  | Some f =>
      match indexOf obj (_objects f) with
      | Some i =>
          let act := if decide (_activeObject f = Some obj) then None
                     else _activeObject f in
          fire ObjectRemoved (Some obj)
            (set_surface (Some (mkFabric (delete i (_objects f)) act)) w)
      | None => w
      end
  | None => w
  end.

(** [canvas.setActiveObject(obj)]. *)
Definition setActiveObject (obj : option loc) (w : World) : World :=
  match surface w with
  | Some f => set_surface (Some (mkFabric (_objects f) obj)) w
  | None => w
  end.

(** ** The component's functions *)

(** [loadState(state)], as created by the render [env].  [state] is [None]
    for [undefined], on which reading [state.objects] throws: the result is
    [None] then. *)
Definition loadState (env : Env) (st : option HistoryState) (w : World)
    : option World :=
  if canvas env then
    let w1 := foldl (λ w obj, canvas_remove obj w) w (getObjects w) in
    match st with
    | Some s =>
        Some (foldl (λ w obj, let '(c, w') := clone obj w in canvas_add c w')
                    w1 (objects s))
    | None => None
    end
  else Some w.

Definition addShape (env : Env) (s : Shape) (w : World) : World :=
  if canvas env then
    let obj := length (heap w) in
    setActiveObject (Some obj) (canvas_add obj (set_heap (heap w ++ [s]) w))
  else w.

Definition addRectangle (env : Env) : World → World := addShape env newRect.

Definition addCircle (env : Env) : World → World := addShape env newCircle.

Definition deleteSelected (env : Env) (w : World) : World :=
  if canvas env then
    match getActiveObject w with
    | Some activeObject => canvas_remove activeObject w
    | None => w
    end
  else w.

Definition undo (env : Env) (w : World) : option World :=
  if (0 <? historyIndex env)%Z then
    let newIndex := (historyIndex env - 1)%Z in
    loadState env (at_index (history env) newIndex) (setHistoryIndex newIndex w)
  else Some w.

Definition redo (env : Env) (w : World) : option World :=
  if (historyIndex env <? Z.of_nat (length (history env)) - 1)%Z then
    let newIndex := (historyIndex env + 1)%Z in
    loadState env (at_index (history env) newIndex) (setHistoryIndex newIndex w)
  else Some w.

Definition exportCanvas (env : Env) (w : World) : World :=
  if canvas env then
    if tainted w then
      (* [canvas.toDataURL] throws: nothing after it runs *)
      mkWorld (heap w) (surface w) (onLoad w) (listeners w) (state w)
              (queued w) (clock w) (downloads w) (background w)
              (S (uncaught w))
    else
      mkWorld (heap w) (surface w) (onLoad w) (listeners w) (state w)
              (queued w) (clock w) (S (downloads w)) (background w)
              (uncaught w)
  else w.

(** ** Mounting, rendering and events *)

(** The component after its first render and its effects.  [hasElement]
    says whether [canvasRef.current] was there: only then the init effect
    builds the fabric canvas and starts loading the background image, whose
    callback closes over this first render.  The wiring effect installs
    nothing, [canvas] being [null]. *)
Definition mount (hasElement : bool) : World :=
  mkWorld []
          (if hasElement then Some (mkFabric [] None) else None)
          (if hasElement then Some initialState else None)
          None initialState noUpdates 0 0 None 0.

(** The next render: the queue is applied and emptied.  The wiring effect
    depends on [canvas], [history] and [historyIndex], which is all its
    listeners close over, so the installed listeners are those of the new
    render whenever [canvas] is set. *)
Definition commit (w : World) : World :=
  let st := mkEnv (default (canvas (state w)) (q_canvas (queued w)))
                  (default (history (state w)) (q_history (queued w)))
                  (default (historyIndex (state w)) (q_historyIndex (queued w))) in
  mkWorld (heap w) (surface w) (onLoad w)
          (if canvas st then Some st else None)
          st noUpdates (clock w) (downloads w) (background w) (uncaught w).

(** The end of the callback given to [fabric.Image.fromURL] by the render
    [env], after the background image is set:
    [setCanvas(fabricCanvas); saveState()]. *)
Definition imageLoaded (env : Env) (w : World) : World :=
  saveState env (setCanvas w).

Inductive Event :=
  | ImageLoad                         (* the background image arrived *)
  | ClickAddRectangle
  | ClickAddCircle
  | ClickDeleteSelected
  | ClickUndo
  | ClickRedo
  | ClickExport
  | Drag (obj : loc) (s : Shape)      (* the user moved or resized an object *)
  | Select (obj : loc)                (* the user clicked an object *)
  | Deselect                          (* the user clicked the background *)
  | Tick (dt : Z).                    (* time passes *)

(** One event of the page.  The toolbar callbacks are those of the current
    render.  The result is [None] when [loadState] throws, with React
    state updates queued.  An exception of [toDataURL], thrown by
    [exportCanvas] before it changed anything, leaves the page for the next
    event and is counted in [uncaught]. *)
Definition step (e : Event) (w : World) : option World :=
  match e with
  | ImageLoad =>
      match onLoad w with
      | Some env =>
          Some (commit (imageLoaded env
                  (setBackgroundImage BACKGROUND_IMAGE
                     (mkWorld (heap w) (surface w) None (listeners w)
                              (state w) (queued w) (clock w) (downloads w)
                              (background w) (uncaught w)))))
      | None => Some w
      end
  | ClickAddRectangle => Some (commit (addRectangle (state w) w))
  | ClickAddCircle => Some (commit (addCircle (state w) w))
  | ClickDeleteSelected => Some (commit (deleteSelected (state w) w))
  | ClickUndo => commit <$> undo (state w) w
  | ClickRedo => commit <$> redo (state w) w
  | ClickExport => Some (commit (exportCanvas (state w) w))
  | Drag obj s =>
      if decide (obj ∈ getObjects w) then
        Some (commit (fire ObjectModified (Some obj)
                        (set_heap (<[obj := s]> (heap w)) w)))
      else Some w
  | Select obj =>
      if decide (obj ∈ getObjects w) then Some (setActiveObject (Some obj) w)
      else Some w
  | Deselect => Some (setActiveObject None w)
  | Tick dt =>
      Some (mkWorld (heap w) (surface w) (onLoad w) (listeners w) (state w)
                    (queued w) (clock w + Z.max 0 dt) (downloads w)
                    (background w) (uncaught w))
  end.

(** Running a list of events, stopping where [step] gives [None]; an
    exception of the export is counted and the run goes on, as the page
    does. *)
Fixpoint run (es : list Event) (w : World) : option World :=
  match es with
  | [] => Some w
  | e :: es' => step e w ≫= run es'
  end.

(** The worlds the page can be in. *)
Inductive reachable : World → Prop :=
  | reachable_mount b : reachable (mount b)
  | reachable_step e w w' : reachable w → step e w = Some w' → reachable w'.

(** ** Invariants *)

Definition lastObjects (h : list HistoryState) : list loc :=
  match list.last h with Some s => objects s | None => [] end.

(** What holds of the page between two events. *)
Record inv (w : World) : Prop := {
  inv_queued : queued w = noUpdates;
  inv_listeners :
    listeners w = if canvas (state w) then Some (state w) else None;
  inv_surface : canvas (state w) = true → is_Some (surface w);
  inv_onLoad :
    match onLoad w with
    | Some env =>
        env = initialState ∧ canvas (state w) = false ∧ is_Some (surface w)
    | None => True
    end;
  inv_blank :
    canvas (state w) = false → state w = initialState ∧ getObjects w = [];
  inv_cursor :
    historyIndex (state w) = (Z.of_nat (length (history (state w))) - 1)%Z;
  inv_last :
    length (getObjects w) = length (lastObjects (history (state w)));
  inv_adjacent : ∀ i s1 s2,
    history (state w) !! i = Some s1 → history (state w) !! S i = Some s2 →
    objects s1 = [] → objects s2 = [] → False;
  inv_live : ∀ l, l ∈ getObjects w → l < length (heap w);
  inv_stored : ∀ st l,
    st ∈ history (state w) → l ∈ objects st →
    l < length (heap w) ∧ l ∉ getObjects w
}.

(** What holds while a callback of render [e] runs on a published canvas. *)
Record mid (e : Env) (w : World) : Prop := {
  mid_listeners : listeners w = Some e;
  mid_canvas : canvas e = true;
  mid_state : state w = e;
  mid_surface : is_Some (surface w);
  mid_onLoad : onLoad w = None;
  mid_q_canvas : q_canvas (queued w) = None;
  mid_live : ∀ l, l ∈ getObjects w → l < length (heap w);
  mid_stored : ∀ st l,
    st ∈ history e → l ∈ objects st →
    l < length (heap w) ∧ l ∉ getObjects w
}.

(** The queue holds a capture of the surface as it is now. *)
Definition captured (e : Env) (w : World) : Prop :=
  ∃ s,
    q_history (queued w)
      = Some (slice0 (history e) (historyIndex e + 1) ++ [s]) ∧
    q_historyIndex (queued w)
      = Some (Z.of_nat (length (slice0 (history e) (historyIndex e + 1)))) ∧
    length (objects s) = length (getObjects w) ∧
    ∀ l, l ∈ objects s → l < length (heap w) ∧ l ∉ getObjects w.

(** During the event objects are added to the surface, modified on it or
    removed from it: a shape is added from the toolbar, the active object
    is deleted, an object is dragged, or undo replaces the shapes (redo
    never gets to: see [step_redo]). *)
Definition edits (e : Event) (w : World) : Prop :=
  canvas (state w) = true ∧
  match e with
  | ClickAddRectangle | ClickAddCircle => True
  | ClickDeleteSelected =>
      ∃ a, getActiveObject w = Some a ∧ a ∈ getObjects w
  | ClickUndo => (0 < historyIndex (state w))%Z
  | Drag obj _ => obj ∈ getObjects w
  | _ => False
  end.

(** The log got one more snapshot and the cursor is on it. *)
Definition appended (w w' : World) : Prop :=
  ∃ s, state w' = mkEnv true (history (state w) ++ [s])
                        (Z.of_nat (length (history (state w)))).

(** The canvas is published, its listeners are those of the current
    render, and no callback is running. *)
Definition wired (w : World) : Prop :=
  canvas (state w) = true ∧ listeners w = Some (state w) ∧
  queued w = noUpdates ∧ is_Some (surface w).

(** The six controls of the toolbar. *)
Definition toolbar (e : Event) : Prop :=
  match e with
  | ClickAddRectangle | ClickAddCircle | ClickDeleteSelected
  | ClickUndo | ClickRedo | ClickExport => True
  | _ => False
  end.

(** The cursor is [-1] on the empty log, and an index of the log otherwise. *)
Definition cursor_ok (w : World) : Prop :=
  let h := history (state w) in
  let i := historyIndex (state w) in
  (-1 ≤ i ≤ Z.of_nat (length h) - 1)%Z ∧ (i = (-1)%Z ↔ h = []).

(** The shapes on the surface, by value. *)
Definition shapes (w : World) : list Shape :=
  (λ obj, heap w !!! obj) <$> getObjects w.

(** The shapes a snapshot stores, by value. *)
Definition stored (w : World) (st : HistoryState) : list Shape :=
  (λ obj, heap w !!! obj) <$> objects st.

(** The page after the image arrived and one rectangle was added. *)
Definition oneRectangle : World :=
  default (mount true) (run [ImageLoad; ClickAddRectangle] (mount true)).

(** The page after the image arrived, a rectangle and a circle were added,
    and undo was clicked. *)
Definition afterUndo : World :=
  default (mount true)
    (run [ImageLoad; ClickAddRectangle; ClickAddCircle; ClickUndo] (mount true)).

(** A log of three snapshots with the cursor on the first one. *)
Definition branchedLog : Env :=
  mkEnv true
        [mkHistoryState [] 0; mkHistoryState [0] 1; mkHistoryState [1; 2] 2]
        0.

(** A page whose log has three snapshots (a rectangle; a rectangle and a
    circle; these and a second rectangle) with the cursor on the middle
    one, the surface showing copies of the shapes of that snapshot. *)
Definition midLog : World :=
  let st := mkEnv true
                  [mkHistoryState [0] 10; mkHistoryState [1; 2] 20;
                   mkHistoryState [3; 4; 5] 30]
                  1 in
  mkWorld [newRect; newRect; newCircle; newRect; newCircle; newRect;
           newRect; newCircle]
          (Some (mkFabric [6; 7] None))
          None (Some st) st noUpdates 40 0 (Some BACKGROUND_IMAGE) 0.

(** [disabled={historyIndex <= 0}] of the Undo button. *)
Definition undoDisabled (env : Env) : bool := (historyIndex env <=? 0)%Z.

(** [disabled={historyIndex >= history.length - 1}] of the Redo button. *)
Definition redoDisabled (env : Env) : bool :=
  (historyIndex env >=? Z.of_nat (length (history env)) - 1)%Z.

(** What also holds while a callback of render [e] runs: the heap has not
    shrunk below [n0] objects and no object is on the surface twice. *)
Record mid2 (n0 : nat) (e : Env) (w : World) : Prop := {
  mid2_mid : mid e w;
  mid2_heap : n0 ≤ length (heap w);
  mid2_nodup : NoDup (getObjects w)
}.

(** The queued log ends with a snapshot that holds the shapes now on the
    surface, in objects of its own allocated from [n0] on. *)
Definition kept (n0 : nat) (e : Env) (w : World) : Prop :=
  ∃ s,
    q_history (queued w)
      = Some (slice0 (history e) (historyIndex e + 1) ++ [s]) ∧
    stored w s = shapes w ∧ NoDup (objects s) ∧
    ∀ l, l ∈ objects s → n0 ≤ l < length (heap w).

(** What also holds of the page between two events, the gestures being
    those of [Event]: no object is on the surface twice, the last snapshot holds the shapes on the surface, and
    the snapshots use objects of their own, later snapshots later ones. *)
Record inv2 (w : World) : Prop := {
  inv2_nodup : NoDup (getObjects w);
  inv2_mirror : ∀ s,
    list.last (history (state w)) = Some s → stored w s = shapes w;
  inv2_snapshot : ∀ st, st ∈ history (state w) → NoDup (objects st);
  inv2_ordered : ∀ i j si sj a b,
    i < j → history (state w) !! i = Some si → history (state w) !! j = Some sj →
    a ∈ objects si → b ∈ objects sj → a < b
}.

(** What no callback but [exportCanvas] and the image's touches. *)
Definition ledger (w : World) : nat * nat * option string :=
  (downloads w, uncaught w, background w).



(** ** The primitives *)

Lemma cloneAll_spec objs w cs w' :
  cloneAll objs w = (cs, w') →
  ∃ ext, w' = set_heap (heap w ++ ext) w ∧ length ext = length objs ∧
         cs = seq (length (heap w)) (length objs).
Proof.
  revert w cs w'. induction objs as [|o objs IH]; intros w cs w' H; simpl in H.
  - inversion H; subst. exists []. rewrite app_nil_r. by destruct w'.
  - destruct (cloneAll objs _) as [cs' w2] eqn:E. inversion H; subst; clear H.
    apply IH in E as (ext & -> & Hlen & ->). simpl.
    exists (heap w !!! o :: ext). rewrite length_app. simpl.
    repeat split.
    + unfold set_heap; simpl. by rewrite <- app_assoc.
    + by rewrite Hlen.
    + f_equal. f_equal. lia.
Qed.

Lemma saveState_spec e w :
  canvas e = true →
  ∃ ext,
    saveState e w =
      setHistoryIndex (Z.of_nat (length (slice0 (history e) (historyIndex e + 1))))
        (setHistory (slice0 (history e) (historyIndex e + 1)
                       ++ [mkHistoryState (seq (length (heap w))
                                               (length (getObjects w)))
                                          (clock w)])
           (set_heap (heap w ++ ext) w)) ∧
    length ext = length (getObjects w).
Proof.
  intros Hc. unfold saveState. rewrite Hc.
  destruct (cloneAll _ _) as [cs w1] eqn:E.
  apply cloneAll_spec in E as (ext & -> & Hlen & ->).
  exists ext. by split.
Qed.

Lemma indexOf_Some x l i : indexOf x l = Some i → l !! i = Some x.
Proof.
  revert i. induction l as [|y l IH]; intros i H; simpl in H; [done|].
  destruct (decide (y = x)) as [->|].
  - by inversion H.
  - destruct (indexOf x l) as [j|]; inversion H; subst. simpl. by apply IH.
Qed.

Lemma indexOf_None x l : indexOf x l = None → x ∉ l.
Proof.
  induction l as [|y l IH]; intros H; simpl in H.
  - apply not_elem_of_nil.
  - destruct (decide (y = x)); [done|].
    destruct (indexOf x l); [done|].
    apply not_elem_of_cons. split; [congruence | by apply IH].
Qed.

Lemma indexOf_elem x l : x ∈ l → is_Some (indexOf x l).
Proof.
  intros H. destruct (indexOf x l) eqn:E; [by eexists|].
  by apply indexOf_None in E.
Qed.

Lemma getObjects_surface w f : surface w = Some f → getObjects w = _objects f.
Proof. unfold getObjects. by intros ->. Qed.

(** ** Inside a callback *)

Section Callback.

(** The render whose callback is running; its listeners are installed. *)
Variable e : Env.

Lemma mid_saveState w :
  mid e w →
  mid e (saveState e w) ∧ captured e (saveState e w) ∧
  surface (saveState e w) = surface w.
Proof.
  intros [Hl Hc Hs Hsf Ho Hq Hlive Hst].
  destruct (saveState_spec e w Hc) as (ext & -> & Hlen).
  split; [|split; [|done]].
  - split; simpl; try done.
    + intros l Hin. rewrite length_app. apply Hlive in Hin. lia.
    + intros st l H1 H2. rewrite length_app.
      destruct (Hst st l H1 H2). split; [lia | done].
  - eexists. simpl. split; [done|]. split; [done|]. split.
    + simpl. by rewrite length_seq.
    + simpl. intros l Hin. apply elem_of_seq in Hin. rewrite length_app.
      split; [unfold getObjects in *; simpl in *; lia|].
      intros Hin'. apply Hlive in Hin'. lia.
Qed.

Lemma fire_listener ev obj w :
  listeners w = Some e → fire ev (Some obj) w = saveState e w.
Proof. unfold fire. intros ->. by destruct ev. Qed.

Lemma mid_canvas_add w obj :
  mid e w → obj < length (heap w) →
  (∀ st, st ∈ history e → obj ∉ objects st) →
  mid e (canvas_add obj w) ∧ captured e (canvas_add obj w) ∧
  getObjects (canvas_add obj w) = getObjects w ++ [obj].
Proof.
  intros Hm Hobj Hfresh. pose proof Hm as [Hl Hc Hs [f Hf] Ho Hq Hlive Hst].
  unfold canvas_add. rewrite Hf.
  set (w1 := set_surface _ w).
  assert (Hm1 : mid e w1).
  { split; simpl; try done.
    - intros l Hin. unfold getObjects in Hin; simpl in Hin.
      apply elem_of_app in Hin as [Hin|Hin].
      + apply Hlive. by rewrite (getObjects_surface w f).
      + apply list_elem_of_singleton in Hin. by subst.
    - intros st l H1 H2. destruct (Hst st l H1 H2) as [? Hn]. split; [done|].
      unfold getObjects; simpl. intros Hin.
      apply elem_of_app in Hin as [Hin|Hin].
      + apply Hn. by rewrite (getObjects_surface w f).
      + apply list_elem_of_singleton in Hin. subst. by apply (Hfresh st). }
  rewrite (fire_listener) by done.
  destruct (mid_saveState w1 Hm1) as (H1 & H2 & H3).
  split; [done|]. split; [done|].
  unfold getObjects at 1. rewrite H3. simpl.
  by rewrite (getObjects_surface w f).
Qed.

Lemma canvas_remove_notin obj w : obj ∉ getObjects w → canvas_remove obj w = w.
Proof.
  unfold canvas_remove, getObjects. destruct (surface w) as [f|]; [|done].
  intros H. destruct (indexOf obj (_objects f)) eqn:E; [|done].
  apply indexOf_Some in E. exfalso. apply H. by eapply list_elem_of_lookup_2.
Qed.

Lemma mid_canvas_remove w obj :
  mid e w → obj ∈ getObjects w →
  mid e (canvas_remove obj w) ∧ captured e (canvas_remove obj w) ∧
  getObjects w ≡ₚ obj :: getObjects (canvas_remove obj w).
Proof.
  intros Hm Hin. pose proof Hm as [Hl Hc Hs [f Hf] Ho Hq Hlive Hst].
  unfold canvas_remove. rewrite Hf.
  rewrite (getObjects_surface w f) in Hin by done.
  destruct (indexOf_elem _ _ Hin) as [i Hi]. rewrite Hi.
  apply indexOf_Some in Hi.
  set (w1 := set_surface _ w).
  assert (Hsub : ∀ l, l ∈ getObjects w1 → l ∈ getObjects w).
  { intros l. rewrite (getObjects_surface w f) by done.
    unfold getObjects; simpl. apply list_elem_of_delete_inv. }
  assert (Hm1 : mid e w1).
  { split; simpl; try done.
    - intros l H. by apply Hlive, Hsub.
    - intros st l H1 H2. destruct (Hst st l H1 H2) as [? Hn]. split; [done|].
      intros H'. by apply Hn, Hsub. }
  rewrite (fire_listener) by done.
  destruct (mid_saveState w1 Hm1) as (H1 & H2 & H3).
  split; [done|]. split; [done|].
  unfold getObjects at 2. rewrite H3. simpl.
  rewrite (getObjects_surface w f) by done.
  by apply delete_Permutation.
Qed.

Lemma mid_clone obj w :
  mid e w →
  mid e (clone obj w).2 ∧ (captured e w → captured e (clone obj w).2) ∧
  getObjects (clone obj w).2 = getObjects w ∧
  (clone obj w).1 = length (heap w) ∧
  length (heap (clone obj w).2) = S (length (heap w)).
Proof.
  intros [Hl Hc Hs Hsf Ho Hq Hlive Hst]. simpl.
  split; [|split; [|split; [done|split; [done|]]]].
  - split; simpl; try done.
    + intros l H. rewrite length_app. apply Hlive in H. simpl. lia.
    + intros st l H1 H2. rewrite length_app.
      destruct (Hst st l H1 H2). split; [simpl; lia | done].
  - intros (s & H1 & H2 & H3 & H4). exists s. simpl.
    split; [done|]. split; [done|]. split; [done|].
    intros l H. rewrite length_app. destruct (H4 l H). split; [simpl; lia|done].
  - rewrite length_app. simpl. lia.
Qed.

Lemma mid_setHistoryIndex i w : mid e w → mid e (setHistoryIndex i w).
Proof. intros []. by split. Qed.

Lemma mid_setActiveObject a w :
  mid e w →
  mid e (setActiveObject a w) ∧
  (captured e w → captured e (setActiveObject a w)) ∧
  getObjects (setActiveObject a w) = getObjects w.
Proof.
  intros Hm. pose proof Hm as [Hl Hc Hs [f Hf] Ho Hq Hlive Hst].
  unfold setActiveObject. rewrite Hf.
  assert (Hg : getObjects (set_surface (Some (mkFabric (_objects f) a)) w)
               = getObjects w).
  { by rewrite (getObjects_surface w f). }
  split; [|split; [|done]].
  - split; simpl; try done.
    + intros l. rewrite Hg. apply Hlive.
    + intros st l. rewrite Hg. apply Hst.
  - intros (s & H1 & H2 & H3 & H4). exists s. rewrite Hg. by simpl.
Qed.

Lemma removeAll_spec objs : ∀ w,
  mid e w → objs ≡ₚ getObjects w →
  let w' := foldl (λ w obj, canvas_remove obj w) w objs in
  mid e w' ∧ getObjects w' = [] ∧
  (captured e w ∨ objs ≠ [] → captured e w') ∧
  (objs = [] → w' = w).
Proof.
  induction objs as [|x xs IH]; intros w Hm Hp; simpl.
  - split; [done|]. split; [by apply Permutation_nil|].
    split; [by intros [?|?]|done].
  - assert (Hx : x ∈ getObjects w).
    { rewrite <- Hp. apply list_elem_of_here. }
    destruct (mid_canvas_remove w x Hm Hx) as (Hm1 & Hc1 & Hp1).
    assert (Hp2 : xs ≡ₚ getObjects (canvas_remove x w)).
    { eapply Permutation_cons_inv. by rewrite <- Hp1. }
    destruct (IH _ Hm1 Hp2) as (H1 & H2 & H3 & _).
    split; [done|]. split; [done|]. split; [|done].
    intros _. apply H3. by left.
Qed.

Lemma addAll_spec objs : ∀ w,
  mid e w →
  let w' := foldl (λ w obj, let '(c, w') := clone obj w in canvas_add c w')
                  w objs in
  mid e w' ∧ length (getObjects w') = length (getObjects w) + length objs ∧
  (captured e w ∨ objs ≠ [] → captured e w') ∧
  (objs = [] → w' = w).
Proof.
  induction objs as [|x xs IH]; intros w Hm; simpl.
  - split; [done|]. split; [lia|]. split; [by intros [?|?]|done].
  - destruct (mid_clone x w Hm) as (Hm1 & _ & Hg1 & Hc1 & Hh1).
    set (c := (clone x w).1) in *. set (w1 := (clone x w).2) in *.
    assert (Hfresh : ∀ st, st ∈ history e → c ∉ objects st).
    { intros st Hst Hin. destruct (mid_stored e w Hm st c Hst Hin). lia. }
    destruct (mid_canvas_add w1 c Hm1 ltac:(lia) Hfresh) as (Hm2 & Hc2 & Hg2).
    destruct (IH _ Hm2) as (H1 & H2 & H3 & _).
    split; [exact H1|]. split; [|split; [|done]].
    + change (length (getObjects (foldl
        (λ w obj, let '(c, w') := clone obj w in canvas_add c w')
        (canvas_add c w1) xs)) = length (getObjects w) + S (length xs)).
      rewrite H2, Hg2, length_app, Hg1. simpl. lia.
    + intros _. apply H3. by left.
Qed.

Lemma loadState_spec s w :
  mid e w →
  ∃ w', loadState e (Some s) w = Some w' ∧ mid e w' ∧
        length (getObjects w') = length (objects s) ∧
        ((getObjects w = [] ∧ objects s = [] ∧ w' = w) ∨
         (captured e w' ∧ ¬ (getObjects w = [] ∧ objects s = []))).
Proof.
  intros Hm. unfold loadState. rewrite (mid_canvas e w Hm).
  eexists. split; [done|].
  destruct (removeAll_spec (getObjects w) w Hm (reflexivity _))
    as (Hm1 & Hg1 & Hc1 & Hid1).
  set (w1 := foldl (λ w obj, canvas_remove obj w) w (getObjects w)) in *.
  destruct (addAll_spec (objects s) w1 Hm1) as (Hm2 & Hg2 & Hc2 & Hid2).
  split; [done|]. split; [rewrite Hg2, Hg1; simpl; lia|].
  destruct (getObjects w) as [|o os] eqn:Eo.
  - destruct (objects s) as [|p ps] eqn:Ep.
    + left. split; [done|]. split; [done|]. rewrite Hid2 by done.
      by apply Hid1.
    + right. split; [|by intros [_ ?]]. apply Hc2. by right.
  - right. split; [|by intros [? _]]. apply Hc2. left. apply Hc1. by right.
Qed.

End Callback.

Lemma loadState_unpublished e st w : canvas e = false → loadState e st w = Some w.
Proof. unfold loadState. by intros ->. Qed.

(** ** Rendering *)

Lemma slice0_all {A} (l : list A) : slice0 l (Z.of_nat (length l) - 1 + 1) = l.
Proof.
  unfold slice0. replace (Z.of_nat (length l) - 1 + 1)%Z with (Z.of_nat (length l)) by lia.
  destruct (Z.ltb_spec (Z.of_nat (length l)) 0); [lia|].
  rewrite Z.min_id, Nat2Z.id. apply firstn_all.
Qed.

Lemma commit_id w :
  queued w = noUpdates →
  listeners w = (if canvas (state w) then Some (state w) else None) →
  commit w = w.
Proof.
  destruct w as [hp sf ol ls [c h i] q ck dl]. simpl. intros -> ->. done.
Qed.

Lemma inv_commit_id w : inv w → commit w = w.
Proof. intros H. apply commit_id; apply H. Qed.

Lemma inv_mid w : inv w → canvas (state w) = true → mid (state w) w.
Proof.
  intros H Hc. split; try done.
  - rewrite (inv_listeners w H). by rewrite Hc.
  - by apply (inv_surface w H).
  - pose proof (inv_onLoad w H) as Ho. destruct (onLoad w); [|done].
    destruct Ho as (_ & Ho & _). congruence.
  - by rewrite (inv_queued w H).
  - apply (inv_live w H).
  - apply (inv_stored w H).
Qed.

(** A world that differs from one satisfying the invariant only in what
    the invariant does not read. *)
Lemma inv_same w w' :
  inv w → queued w' = queued w → listeners w' = listeners w →
  state w' = state w → onLoad w' = onLoad w →
  getObjects w' = getObjects w →
  (is_Some (surface w) → is_Some (surface w')) →
  length (heap w) ≤ length (heap w') →
  inv w'.
Proof.
  intros H Hq Hl Hs Ho Hg Hsf Hh.
  split; rewrite ?Hq, ?Hl, ?Hs, ?Ho, ?Hg; try apply H.
  - intros Hc. by apply Hsf, (inv_surface w H).
  - pose proof (inv_onLoad w H) as Hol. destruct (onLoad w); [|done].
    destruct Hol as (? & ? & ?). auto.
  - intros l Hin. pose proof (inv_live w H l Hin). lia.
  - intros st l H1 H2. destruct (inv_stored w H st l H1 H2). split; [lia|done].
Qed.

Lemma length_zero_nil {A} (l : list A) : length l = 0 → l = [].
Proof. by destruct l. Qed.

(** Rendering after a callback that captured, from a world whose cursor
    is on the last snapshot. *)
Lemma commit_captured w w1 :
  inv w → canvas (state w) = true →
  mid (state w) w1 → captured (state w) w1 →
  ∃ s,
    state (commit w1)
      = mkEnv true (history (state w) ++ [s])
              (Z.of_nat (length (history (state w)))) ∧
    length (objects s) = length (getObjects w1) ∧
    getObjects (commit w1) = getObjects w1 ∧
    heap (commit w1) = heap w1 ∧
    (¬ (getObjects w = [] ∧ getObjects w1 = []) → inv (commit w1)).
Proof.
  intros Hinv Hc Hm (s & Hq1 & Hq2 & Hlen & Hfresh).
  rewrite (inv_cursor w Hinv), slice0_all in Hq1, Hq2.
  assert (Hst : state (commit w1)
                = mkEnv true (history (state w) ++ [s])
                        (Z.of_nat (length (history (state w))))).
  { unfold commit; simpl.
    rewrite (mid_q_canvas _ _ Hm), Hq1, Hq2, (mid_state _ _ Hm). simpl.
    by rewrite Hc. }
  exists s. split; [done|]. split; [done|]. split; [done|]. split; [done|].
  intros Hne. split; rewrite ?Hst; simpl; try done.
  - unfold commit; simpl.
    rewrite (mid_q_canvas _ _ Hm), Hq1, Hq2, (mid_state _ _ Hm). simpl.
    by rewrite Hc.
  - intros _. apply (mid_surface _ _ Hm).
  - by rewrite (mid_onLoad _ _ Hm).
  - rewrite length_app. simpl. lia.
  - unfold lastObjects. by rewrite last_snoc.
  - intros i s1 s2 H1 H2 E1 E2.
    destruct (decide (S i < length (history (state w)))) as [Hlt|Hge].
    + rewrite lookup_app_l in H1, H2 by lia.
      by apply (inv_adjacent w Hinv i s1 s2).
    + pose proof (lookup_lt_Some _ _ _ H2) as Hb.
      rewrite length_app in Hb; simpl in Hb.
      assert (Hi : S i = length (history (state w))) by lia.
      rewrite lookup_app_l in H1 by lia.
      rewrite lookup_app_r in H2 by lia.
      rewrite Hi, Nat.sub_diag in H2. simpl in H2. inversion H2; subst s2.
      apply Hne. split.
      * apply length_zero_nil. rewrite (inv_last w Hinv). unfold lastObjects.
        rewrite last_lookup, <- Hi. simpl. by rewrite H1, E1.
      * apply length_zero_nil. by rewrite <- Hlen, E2.
  - apply (mid_live _ _ Hm).
  - intros st l Hin Hl. apply elem_of_app in Hin as [Hin|Hin].
    + by apply (mid_stored _ _ Hm st).
    + apply list_elem_of_singleton in Hin. subst. by apply Hfresh.
Qed.

(** ** The callbacks on a published canvas *)

Lemma addShape_spec e s w :
  mid e w →
  mid e (addShape e s w) ∧ captured e (addShape e s w) ∧
  getObjects (addShape e s w) = getObjects w ++ [length (heap w)].
Proof.
  intros Hm. unfold addShape. rewrite (mid_canvas e w Hm).
  set (w1 := set_heap (heap w ++ [s]) w).
  assert (Hm1 : mid e w1).
  { destruct Hm as [Hl Hc Hs Hsf Ho Hq Hlive Hst]. split; simpl; try done.
    - intros l H. rewrite length_app. apply Hlive in H. simpl. lia.
    - intros st l H1 H2. rewrite length_app.
      destruct (Hst st l H1 H2). split; [simpl; lia|done]. }
  assert (Hfresh : ∀ st, st ∈ history e → length (heap w) ∉ objects st).
  { intros st Hst Hin. destruct (mid_stored e w Hm st _ Hst Hin). lia. }
  assert (Hlt : length (heap w) < length (heap w1)).
  { unfold w1; simpl. rewrite length_app. simpl. lia. }
  destruct (mid_canvas_add e w1 _ Hm1 Hlt Hfresh) as (Hm2 & Hc2 & Hg2).
  destruct (mid_setActiveObject e (Some (length (heap w))) _ Hm2)
    as (Hm3 & Hc3 & Hg3).
  split; [done|]. split; [by apply Hc3|]. by rewrite Hg3, Hg2.
Qed.

Lemma drag_spec e obj s w :
  mid e w →
  let w1 := fire ObjectModified (Some obj) (set_heap (<[obj := s]> (heap w)) w) in
  mid e w1 ∧ captured e w1 ∧ getObjects w1 = getObjects w.
Proof.
  intros Hm w1.
  assert (Hm0 : mid e (set_heap (<[obj := s]> (heap w)) w)).
  { destruct Hm as [Hl Hc Hs Hsf Ho Hq Hlive Hst]. split; simpl; try done.
    - intros l H. rewrite length_insert. by apply Hlive.
    - intros st l H1 H2. rewrite length_insert. by apply (Hst st). }
  unfold w1. rewrite (fire_listener e) by apply Hm.
  destruct (mid_saveState e _ Hm0) as (H1 & H2 & H3).
  split; [done|]. split; [done|]. unfold getObjects. by rewrite H3.
Qed.

(** ** One event *)

Lemma step_captured w w1 :
  inv w → canvas (state w) = true →
  mid (state w) w1 → captured (state w) w1 →
  ¬ (getObjects w = [] ∧ getObjects w1 = []) →
  inv (commit w1) ∧ appended w (commit w1).
Proof.
  intros Hinv Hc Hm Hcap Hne.
  destruct (commit_captured w w1 Hinv Hc Hm Hcap) as (s & Hs & _ & _ & _ & Hi).
  split; [by apply Hi | by exists s].
Qed.

Lemma inv_published w : inv w → getObjects w ≠ [] → canvas (state w) = true.
Proof.
  intros Hinv Hne. destruct (canvas (state w)) eqn:E; [done|].
  by destruct (inv_blank w Hinv E).
Qed.

Lemma step_addShape w s :
  inv w →
  inv (commit (addShape (state w) s w)) ∧
  (canvas (state w) = true → appended w (commit (addShape (state w) s w))).
Proof.
  intros Hinv. destruct (canvas (state w)) eqn:Hc.
  - destruct (addShape_spec _ s w (inv_mid w Hinv Hc)) as (Hm & Hcap & Hg).
    destruct (step_captured w _ Hinv Hc Hm Hcap); [|done].
    rewrite Hg. intros [_ H]. by destruct (getObjects w).
  - unfold addShape. rewrite Hc, inv_commit_id by done. by split.
Qed.

Lemma step_deleteSelected w :
  inv w →
  inv (commit (deleteSelected (state w) w)) ∧
  (edits ClickDeleteSelected w →
   appended w (commit (deleteSelected (state w) w))).
Proof.
  intros Hinv. unfold deleteSelected, edits.
  destruct (canvas (state w)) eqn:Hc;
    [|rewrite inv_commit_id by done; split; [done | by intros [? _]]].
  destruct (getActiveObject w) as [a|];
    [|rewrite inv_commit_id by done; split; [done | by intros [_ (? & ? & _)]]].
  destruct (decide (a ∈ getObjects w)) as [Hin|Hout].
  - destruct (mid_canvas_remove _ w a (inv_mid w Hinv Hc) Hin)
      as (Hm & Hcap & Hp).
    destruct (step_captured w _ Hinv Hc Hm Hcap); [|done].
    intros [H _]. rewrite H in Hin. by apply elem_of_nil in Hin.
  - rewrite canvas_remove_notin, inv_commit_id by done.
    split; [done|]. intros [_ (b & Hb & Hin)]. congruence.
Qed.

Lemma step_drag w obj s :
  inv w → obj ∈ getObjects w →
  let w1 := fire ObjectModified (Some obj) (set_heap (<[obj := s]> (heap w)) w) in
  inv (commit w1) ∧ appended w (commit w1).
Proof.
  intros Hinv Hin w1.
  assert (Hc : canvas (state w) = true).
  { apply inv_published; [done|]. intros E. rewrite E in Hin.
    by apply elem_of_nil in Hin. }
  destruct (drag_spec _ obj s w (inv_mid w Hinv Hc)) as (Hm & Hcap & Hg).
  apply step_captured; try done.
  intros [E _]. rewrite E in Hin. by apply elem_of_nil in Hin.
Qed.

Lemma at_index_nat {A} (l : list A) (i : nat) : at_index l (Z.of_nat i) = l !! i.
Proof.
  unfold at_index. destruct (Z.ltb_spec (Z.of_nat i) 0); [lia|].
  by rewrite Nat2Z.id.
Qed.

Lemma step_undo w :
  inv w →
  ∃ w1, undo (state w) w = Some w1 ∧ inv (commit w1) ∧
        ((0 < historyIndex (state w))%Z → appended w (commit w1)).
Proof.
  intros Hinv. unfold undo.
  destruct (Z.ltb_spec 0 (historyIndex (state w))) as [Hpos|Hle];
    [|exists w; rewrite inv_commit_id by done;
      split; [done|]; split; [done|]; lia].
  pose proof (inv_cursor w Hinv) as Hcur.
  destruct (canvas (state w)) eqn:Hc;
    [|destruct (inv_blank w Hinv Hc) as [E _]; rewrite E in Hpos; simpl in Hpos; lia].
  set (h := history (state w)) in *.
  assert (Hlen : 2 ≤ length h) by lia.
  replace (historyIndex (state w) - 1)%Z with (Z.of_nat (length h - 2)) by lia.
  rewrite at_index_nat.
  destruct (lookup_lt_is_Some_2 h (length h - 2) ltac:(lia)) as [s Hs].
  destruct (lookup_lt_is_Some_2 h (length h - 1) ltac:(lia)) as [s' Hs'].
  rewrite Hs.
  pose proof (mid_setHistoryIndex _ (Z.of_nat (length h - 2)) w
                (inv_mid w Hinv Hc)) as Hm.
  destruct (loadState_spec _ s _ Hm) as (w1 & -> & Hm1 & Hg1 & Hcase).
  exists w1. split; [done|].
  assert (Hlast : length (getObjects w) = length (objects s')).
  { rewrite (inv_last w Hinv). unfold lastObjects. rewrite last_lookup.
    fold h. replace (pred (length h)) with (length h - 1) by lia.
    by rewrite Hs'. }
  destruct Hcase as [(E1 & E2 & _)|[Hcap Hne]].
  - exfalso. apply (inv_adjacent w Hinv (length h - 2) s s'); try done.
    + fold h. by replace (S (length h - 2)) with (length h - 1) by lia.
    + apply length_zero_nil. rewrite <- Hlast.
      change (getObjects w) with
        (getObjects (setHistoryIndex (Z.of_nat (length h - 2)) w)).
      by rewrite E1.
  - destruct (step_captured w w1 Hinv Hc Hm1 Hcap) as [H1 H2]; [|done].
    intros [E1 E2]. apply Hne. split; [done|].
    apply length_zero_nil. by rewrite <- Hg1, E2.
Qed.

Lemma step_redo w : inv w → redo (state w) w = Some w.
Proof.
  intros Hinv. unfold redo. rewrite (inv_cursor w Hinv).
  by rewrite Z.ltb_irrefl.
Qed.

Lemma step_spec e w :
  inv w →
  ∃ w', step e w = Some w' ∧ inv w' ∧ (edits e w → appended w w').
Proof.
  intros Hinv. destruct e; simpl.
  - (* ImageLoad *)
    pose proof (inv_onLoad w Hinv) as Ho.
    destruct (onLoad w) as [env|];
      [|exists w; split; [done|]; split; [done | by intros [_ ?]]].
    destruct Ho as (-> & Hc & Hsf). eexists. split; [done|].
    split; [|by intros [_ ?]].
    destruct (inv_blank w Hinv Hc) as [Hs Hg].
    unfold imageLoaded, saveState, commit; simpl.
    rewrite (inv_queued w Hinv), Hs. simpl.
    split; simpl; try done.
    + unfold getObjects in *; simpl. by rewrite Hg.
    + intros l. unfold getObjects in *; simpl. rewrite Hg.
      intros H. by apply elem_of_nil in H.
    + intros st l H. by apply elem_of_nil in H.
  - eexists. split; [done|]. destruct (step_addShape w newRect Hinv).
    split; [done|]. intros [? _]. auto.
  - eexists. split; [done|]. destruct (step_addShape w newCircle Hinv).
    split; [done|]. intros [? _]. auto.
  - eexists. split; [done|]. apply (step_deleteSelected w Hinv).
  - destruct (step_undo w Hinv) as (w1 & -> & H & Happ). eexists.
    split; [done|]. split; [done|]. intros [_ Hpos]. by apply Happ.
  - rewrite (step_redo w Hinv). simpl. rewrite inv_commit_id by done.
    eexists. split; [done|]. split; [done | by intros [_ ?]].
  - eexists. split; [done|]. split; [|by intros [_ ?]].
    assert (H : inv (exportCanvas (state w) w)).
    { unfold exportCanvas. destruct (canvas (state w)); [|done].
      destruct (tainted w); by apply (inv_same w). }
    by rewrite inv_commit_id.
  - destruct (decide (obj ∈ getObjects w)) as [Hin|Hout].
    + eexists. split; [done|].
      destruct (step_drag w obj s Hinv Hin). by split.
    + exists w. split; [done|]. split; [done | by intros [_ ?]].
  - exists (if decide (obj ∈ getObjects w)
            then setActiveObject (Some obj) w else w).
    split; [by destruct (decide _)|]. split; [|by intros [_ ?]].
    destruct (decide _); [|done].
    unfold setActiveObject, getObjects.
    destruct (surface w) eqn:E; [|done].
    apply (inv_same w); simpl; try done;
      first [by eexists | unfold getObjects; simpl; by rewrite E].
  - eexists. split; [done|]. split; [|by intros [_ ?]].
    unfold setActiveObject.
    destruct (surface w) eqn:E; [|done].
    apply (inv_same w); simpl; try done;
      first [by eexists | unfold getObjects; simpl; by rewrite E].
  - eexists. split; [done|]. split; [|by intros [_ ?]].
    by apply (inv_same w).
Qed.

Lemma inv_mount b : inv (mount b).
Proof.
  assert (Hg : getObjects (mount b) = []) by by destruct b.
  split; rewrite ?Hg; simpl; try done.
  - destruct b; simpl; [|done]. split; [done|]. split; [done|]. by eexists.
  - intros l H. by apply elem_of_nil in H.
  - intros st l H. by apply elem_of_nil in H.
Qed.

Lemma reachable_inv w : reachable w → inv w.
Proof.
  induction 1 as [b|e w w' _ IH Hstep]; [apply inv_mount|].
  destruct (step_spec e w IH) as (w'' & E & H & _). congruence.
Qed.

Lemma run_reachable es : ∀ w w', reachable w → run es w = Some w' → reachable w'.
Proof.
  induction es as [|e es IH]; intros w w' Hr H; simpl in H.
  - by inversion H; subst.
  - destruct (step e w) as [w1|] eqn:E; [|done]. simpl in H.
    apply (IH w1); [|done]. by apply (reachable_step e w).
Qed.

(** The page reached from the mount with a backing element by the given
    events. *)
Ltac reach es :=
  apply (run_reachable es (mount true));
  [apply reachable_mount | vm_compute; reflexivity].

Lemma inv_cursor_ok w : inv w → cursor_ok w.
Proof.
  intros Hinv. unfold cursor_ok. rewrite (inv_cursor w Hinv).
  destruct (history (state w)); simpl; split; try lia; split; try done; lia.
Qed.

(** * The claims *)

(** C1: every event in which objects are added to the surface, modified
    on it or removed from it (a shape added from the toolbar, the active
    object deleted, an object dragged, the shapes replaced by undo) ends
    with the history log exactly one snapshot longer, the earlier
    snapshots in place, and the cursor on the new last index,
    [length - 1]. *)
Theorem C1_edit_appends_one_snapshot e w :
  reachable w → edits e w →
  ∃ w' s,
    step e w = Some w' ∧
    history (state w') = history (state w) ++ [s] ∧
    length (history (state w')) = S (length (history (state w))) ∧
    historyIndex (state w')
      = (Z.of_nat (length (history (state w'))) - 1)%Z.
Proof.
  intros Hr He. apply reachable_inv in Hr.
  destruct (step_spec e w Hr) as (w' & Hstep & _ & Happ).
  destruct (Happ He) as [s Hs]. exists w', s. rewrite Hs. simpl.
  rewrite length_app. simpl. repeat split; [done | lia | lia].
Qed.

Lemma C1_witness :
  reachable oneRectangle ∧ edits ClickAddCircle oneRectangle ∧
  ∃ w' s,
    step ClickAddCircle oneRectangle = Some w' ∧
    history (state w') = history (state oneRectangle) ++ [s] ∧
    length (history (state w')) = S (length (history (state oneRectangle))) ∧
    historyIndex (state w')
      = (Z.of_nat (length (history (state w'))) - 1)%Z.
Proof.
  assert (Hr : reachable oneRectangle) by reach [ImageLoad; ClickAddRectangle].
  assert (He : edits ClickAddCircle oneRectangle)
    by (split; [vm_compute; reflexivity | exact I]).
  split; [exact Hr|]. split; [exact He|].
  exact (C1_edit_appends_one_snapshot ClickAddCircle oneRectangle Hr He).
Defined.

(** ** Before the canvas is published *)

Lemma toolbar_unpublished e w :
  inv w → canvas (state w) = false → toolbar e → step e w = Some w.
Proof.
  intros Hinv Hc Ht. destruct (inv_blank w Hinv Hc) as [Hs _].
  destruct e; try done; simpl.
  - unfold addRectangle, addShape. by rewrite Hc, inv_commit_id.
  - unfold addCircle, addShape. by rewrite Hc, inv_commit_id.
  - unfold deleteSelected. by rewrite Hc, inv_commit_id.
  - unfold undo. rewrite Hs. simpl. by rewrite inv_commit_id.
  - rewrite step_redo by done. simpl. by rewrite inv_commit_id.
  - unfold exportCanvas. by rewrite Hc, inv_commit_id.
Qed.

Lemma step_unpublished e w :
  inv w → canvas (state w) = false → e ≠ ImageLoad →
  ∃ w', step e w = Some w' ∧ canvas (state w') = false ∧
        (surface w = None → surface w' = None).
Proof.
  intros Hinv Hc Hne. destruct (inv_blank w Hinv Hc) as [_ Hg].
  destruct e; try done;
    try (exists w; split; [by apply toolbar_unpublished | done]); simpl.
  - rewrite Hg. destruct (decide (obj ∈ [])) as [H|_]; [|by exists w].
    by apply elem_of_nil in H.
  - rewrite Hg. destruct (decide (obj ∈ [])) as [H|_]; [|by exists w].
    by apply elem_of_nil in H.
  - eexists. split; [done|]. unfold setActiveObject.
    destruct (surface w) eqn:E; simpl; split; auto; congruence.
  - eexists. by split.
Qed.


Lemma run_unpublished es : ∀ w,
  inv w → canvas (state w) = false → ImageLoad ∉ es →
  ∃ w', run es w = Some w' ∧ inv w' ∧ canvas (state w') = false ∧
        (surface w = None → surface w' = None).
Proof.
  induction es as [|e es IH]; intros w Hinv Hc Hes; simpl; [by exists w|].
  apply not_elem_of_cons in Hes as [Hne Hes].
  destruct (step_unpublished e w Hinv Hc) as (w1 & E & Hc1 & Hs1); [done|].
  destruct (step_spec e w Hinv) as (w1' & E' & Hi1 & _).
  rewrite E in *. inversion E'; subst w1'. simpl.
  destruct (IH w1 Hi1 Hc1 Hes) as (w' & ? & ? & ? & ?).
  exists w'. split; [done|]. split; [done|]. split; [done|]. auto.
Qed.




Lemma deleteSelected_nothing w :
  inv w → getActiveObject w = None → step ClickDeleteSelected w = Some w.
Proof.
  intros Hinv Ha. simpl. unfold deleteSelected. rewrite Ha.
  destruct (canvas (state w)); by rewrite inv_commit_id.
Qed.

(** C8: the cursor is always in [{-1} ∪ [0, length - 1]]: it is [-1]
    exactly while the log is empty, it is an index of the log otherwise,
    and every event of the page, which runs to completion, keeps it so. *)
Theorem C8_cursor_always_valid w :
  reachable w →
  cursor_ok w ∧ ∀ e, ∃ w', step e w = Some w' ∧ cursor_ok w'.
Proof.
  intros Hr. apply reachable_inv in Hr. split; [by apply inv_cursor_ok|].
  intros e. destruct (step_spec e w Hr) as (w' & Hstep & Hinv & _).
  exists w'. split; [done | by apply inv_cursor_ok].
Qed.

Lemma C8_witness :
  reachable afterUndo ∧
  cursor_ok afterUndo ∧ ∀ e, ∃ w', step e afterUndo = Some w' ∧ cursor_ok w'.
Proof.
  assert (Hr : reachable afterUndo)
    by reach [ImageLoad; ClickAddRectangle; ClickAddCircle; ClickUndo].
  split; [exact Hr|]. exact (C8_cursor_always_valid afterUndo Hr).
Defined.

(** C5: [undo()] with the cursor at 0 and [redo()] with the cursor at
    [length - 1] do nothing: the callback, of whatever render, returns the
    world it got with nothing queued, and the click leaves the whole page,
    and so the shapes on the surface, the cursor and the log, as it was. *)
Theorem C5_undo_redo_at_the_ends env w :
  (historyIndex env = 0%Z → undo env w = Some w) ∧
  (historyIndex env = (Z.of_nat (length (history env)) - 1)%Z →
   redo env w = Some w) ∧
  (reachable w → historyIndex (state w) = 0%Z → step ClickUndo w = Some w) ∧
  (reachable w →
   historyIndex (state w) = (Z.of_nat (length (history (state w))) - 1)%Z →
   step ClickRedo w = Some w).
Proof.
  assert (Hu : ∀ env', historyIndex env' = 0%Z → undo env' w = Some w).
  { intros env' Hi. unfold undo. by rewrite Hi. }
  assert (Hd : ∀ env',
             historyIndex env' = (Z.of_nat (length (history env')) - 1)%Z →
             redo env' w = Some w).
  { intros env' Hi. unfold redo. by rewrite Hi, Z.ltb_irrefl. }
  split; [apply Hu|]. split; [apply Hd|]. split.
  - intros Hr Hi. apply reachable_inv in Hr. simpl.
    rewrite Hu by done. simpl. by rewrite inv_commit_id.
  - intros Hr Hi. apply reachable_inv in Hr. simpl.
    rewrite Hd by done. simpl. by rewrite inv_commit_id.
Qed.

Lemma C5_witness :
  (historyIndex branchedLog = 0%Z ∧ undo branchedLog midLog = Some midLog) ∧
  (reachable oneRectangle ∧
   historyIndex (state oneRectangle) = 0%Z ∧
   historyIndex (state oneRectangle)
     = (Z.of_nat (length (history (state oneRectangle))) - 1)%Z ∧
   redo (state oneRectangle) oneRectangle = Some oneRectangle ∧
   step ClickUndo oneRectangle = Some oneRectangle ∧
   step ClickRedo oneRectangle = Some oneRectangle).
Proof.
  assert (Hb : historyIndex branchedLog = 0%Z) by reflexivity.
  assert (Hr : reachable oneRectangle) by reach [ImageLoad; ClickAddRectangle].
  assert (H0 : historyIndex (state oneRectangle) = 0%Z)
    by (vm_compute; reflexivity).
  assert (H1 : historyIndex (state oneRectangle)
               = (Z.of_nat (length (history (state oneRectangle))) - 1)%Z)
    by (vm_compute; reflexivity).
  destruct (C5_undo_redo_at_the_ends branchedLog midLog) as (Hu & _).
  destruct (C5_undo_redo_at_the_ends (state oneRectangle) oneRectangle)
    as (_ & Hd & Hcu & Hcd).
  split; [split; [exact Hb | exact (Hu Hb)]|].
  split; [exact Hr|]. split; [exact H0|]. split; [exact H1|].
  split; [exact (Hd H1)|]. split; [exact (Hcu Hr H0) | exact (Hcd Hr H1)].
Defined.

(** C10: before the callback of the background image has run, every
    control of the toolbar (add rectangle, add circle, delete, undo, redo,
    export) leaves the page as it was, and the log is empty with the cursor
    at [-1]. *)
Theorem C10_inert_before_image_load b es :
  ImageLoad ∉ es →
  ∃ w, run es (mount b) = Some w ∧
       history (state w) = [] ∧ historyIndex (state w) = (-1)%Z ∧
       ∀ e, toolbar e → step e w = Some w.
Proof.
  intros Hes.
  destruct (run_unpublished es (mount b) (inv_mount b) eq_refl Hes)
    as (w & Hrun & Hinv & Hc & _).
  exists w. split; [done|].
  destruct (inv_blank w Hinv Hc) as [Hs _]. rewrite Hs.
  split; [done|]. split; [done|].
  intros e He. by apply toolbar_unpublished.
Qed.

Lemma C10_witness :
  (ImageLoad ∉ [ClickAddRectangle; ClickAddCircle; ClickUndo]) ∧
  (∃ w, run [ClickAddRectangle; ClickAddCircle; ClickUndo] (mount true) = Some w ∧
        history (state w) = [] ∧ historyIndex (state w) = (-1)%Z ∧
        ∀ e, toolbar e → step e w = Some w).
Proof.
  assert (H : ImageLoad ∉ [ClickAddRectangle; ClickAddCircle; ClickUndo]).
  { intros H. repeat (apply elem_of_cons in H as [H|H]; [discriminate H|]).
    by apply elem_of_nil in H. }
  split; [exact H|].
  exact (C10_inert_before_image_load true _ H).
Defined.

Lemma slice0_take {A} (l : list A) (e : Z) :
  (0 ≤ e ≤ Z.of_nat (length l))%Z → slice0 l e = take (Z.to_nat e) l.
Proof.
  intros He. unfold slice0. destruct (Z.ltb_spec e 0); [lia|].
  by rewrite Z.min_l by lia.
Qed.

(** C4: a capture made with the cursor anywhere in the log, as after one
    or more undos, keeps the snapshots up to the cursor, drops every
    snapshot behind it and appends the new one: the new log has
    [cursor + 2] snapshots, the new one last, and the cursor is on it.
    This is so of [saveState] followed by a render, and of the capture an
    added rectangle triggers on a page whose listeners are installed. *)
Theorem C4_capture_drops_the_redo_branch env w :
  (canvas env = true →
   (-1 ≤ historyIndex env < Z.of_nat (length (history env)))%Z →
   let w' := commit (saveState env w) in
   ∃ s,
     history (state w')
       = take (Z.to_nat (historyIndex env + 1)) (history env) ++ [s] ∧
     objects s = seq (length (heap w)) (length (getObjects w)) ∧
     historyIndex (state w') = (historyIndex env + 1)%Z ∧
     length (history (state w')) = Z.to_nat (historyIndex env + 2) ∧
     (∀ j, (Z.of_nat j ≤ historyIndex env)%Z →
           history (state w') !! j = history env !! j) ∧
     history (state w') !! Z.to_nat (historyIndex env + 1) = Some s ∧
     (∀ j, (historyIndex env + 1 < Z.of_nat j)%Z →
           history (state w') !! j = None)) ∧
  (wired w →
   (-1 ≤ historyIndex (state w)
       < Z.of_nat (length (history (state w))))%Z →
   ∃ w' s,
     step ClickAddRectangle w = Some w' ∧
     history (state w')
       = take (Z.to_nat (historyIndex (state w) + 1)) (history (state w))
         ++ [s] ∧
     historyIndex (state w') = (historyIndex (state w) + 1)%Z).
Proof.
  split.
  - intros Hc Hi w'. unfold w'.
    destruct (saveState_spec env w Hc) as (ext & -> & Hext).
    rewrite slice0_take by lia. simpl.
    set (k := Z.to_nat (historyIndex env + 1)).
    assert (Hk : length (take k (history env)) = k).
    { apply length_take_le. unfold k. lia. }
    eexists. split; [done|]. split; [done|]. rewrite Hk.
    split; [unfold k; lia|]. split; [|split; [|split]].
    + rewrite length_app, Hk. unfold k. simpl. lia.
    + intros j Hj. rewrite lookup_app_l by lia.
      apply lookup_take_lt. unfold k. lia.
    + rewrite lookup_app_r by lia. by rewrite Hk, Nat.sub_diag.
    + intros j Hj. apply lookup_ge_None_2. rewrite length_app, Hk. simpl.
      unfold k. lia.
  - intros (Hc & Hl & Hq & [f Hf]) Hi. simpl.
    unfold addRectangle, addShape, canvas_add. rewrite Hc. simpl. rewrite Hf.
    rewrite (fire_listener (state w)) by done.
    match goal with |- context [saveState _ ?w0] =>
      destruct (saveState_spec (state w) w0 Hc) as (ext & -> & _) end.
    unfold setActiveObject, commit. simpl.
    rewrite Hq. simpl. rewrite slice0_take by lia.
    eexists. eexists. split; [done|]. simpl. split; [done|].
    rewrite length_take_le by lia. lia.
Qed.

Lemma C4_witness :
  (canvas branchedLog = true ∧
   (-1 ≤ historyIndex branchedLog
       < Z.of_nat (length (history branchedLog)))%Z ∧
   ∃ s,
     history (state (commit (saveState branchedLog oneRectangle)))
       = [mkHistoryState [] 0; s] ∧
     history (state (commit (saveState branchedLog oneRectangle))) !! 2
       = None) ∧
  (wired midLog ∧
   (-1 ≤ historyIndex (state midLog)
       < Z.of_nat (length (history (state midLog))))%Z ∧
   ∃ w' s,
     step ClickAddRectangle midLog = Some w' ∧
     history (state w')
       = [mkHistoryState [0] 10; mkHistoryState [1; 2] 20; s] ∧
     historyIndex (state w') = 2%Z).
Proof.
  assert (Hc : canvas branchedLog = true) by reflexivity.
  assert (Hi : (-1 ≤ historyIndex branchedLog
                   < Z.of_nat (length (history branchedLog)))%Z)
    by (simpl; lia).
  assert (Hw : wired midLog).
  { split; [reflexivity|]. split; [reflexivity|]. split; [reflexivity|].
    by eexists. }
  assert (Hj : (-1 ≤ historyIndex (state midLog)
                   < Z.of_nat (length (history (state midLog))))%Z)
    by (simpl; lia).
  split.
  - split; [exact Hc|]. split; [exact Hi|].
    destruct (proj1 (C4_capture_drops_the_redo_branch branchedLog oneRectangle)
                Hc Hi) as (s & H1 & _ & _ & _ & _ & _ & H2).
    exists s. split; [exact H1|]. apply (H2 2). simpl. lia.
  - split; [exact Hw|]. split; [exact Hj|].
    destruct (proj2 (C4_capture_drops_the_redo_branch (state midLog) midLog)
                Hw Hj) as (w' & s & H1 & H2 & H3).
    exists w', s. split; [exact H1|]. split; [exact H2 | exact H3].
Defined.

(** ** Isolation of the snapshots *)

Lemma stored_ext w1 w2 st :
  (∀ l, l ∈ objects st → heap w1 !! l = heap w2 !! l) →
  stored w1 st = stored w2 st.
Proof.
  intros H. unfold stored. apply list_fmap_ext. intros i l Hl.
  rewrite !list_lookup_total_alt. f_equal. apply H.
  by eapply list_elem_of_lookup_2.
Qed.

Lemma prefix_lookup_total (h1 h2 : list Shape) (l : loc) :
  h1 `prefix_of` h2 → l < length h1 → h2 !!! l = h1 !!! l.
Proof. intros [k ->] Hl. by apply lookup_total_app_l. Qed.

(** The heap only grows while a callback runs. *)
Lemma saveState_heap e w : heap w `prefix_of` heap (saveState e w).
Proof.
  destruct (canvas e) eqn:Hc.
  - destruct (saveState_spec e w Hc) as (ext & -> & _). simpl. by exists ext.
  - unfold saveState. by rewrite Hc.
Qed.

Lemma fire_heap ev target w : heap w `prefix_of` heap (fire ev target w).
Proof.
  unfold fire. destruct (listeners w) as [e|]; [|done].
  destruct ev, target; simpl; first [apply saveState_heap | done].
Qed.

Lemma canvas_add_heap obj w : heap w `prefix_of` heap (canvas_add obj w).
Proof.
  unfold canvas_add. destruct (surface w); [|done].
  apply (fire_heap _ _ (set_surface _ w)).
Qed.

Lemma canvas_remove_heap obj w : heap w `prefix_of` heap (canvas_remove obj w).
Proof.
  unfold canvas_remove. destruct (surface w) as [f|]; [|done].
  destruct (indexOf obj (_objects f)); [|done].
  apply (fire_heap _ _ (set_surface _ w)).
Qed.

Lemma removeAll_heap objs : ∀ w,
  heap w `prefix_of` heap (foldl (λ w obj, canvas_remove obj w) w objs).
Proof.
  induction objs as [|x xs IH]; intros w; simpl; [done|].
  etrans; [apply (canvas_remove_heap x)|apply IH].
Qed.

(** The second loop of [loadState] appends, in order, one new object per
    stored object, with the shape the stored object has. *)
Lemma addAll_copies e objs : ∀ w,
  mid e w → (∀ o, o ∈ objs → o < length (heap w)) →
  let w' := foldl (λ w obj, let '(c, w') := clone obj w in canvas_add c w')
                  w objs in
  heap w `prefix_of` heap w' ∧
  ∃ cs, getObjects w' = getObjects w ++ cs ∧
        (∀ c, c ∈ cs → length (heap w) ≤ c < length (heap w')) ∧
        (λ c, heap w' !!! c) <$> cs = (λ o, heap w !!! o) <$> objs.
Proof.
  induction objs as [|x xs IH]; intros w Hm Hal.
  - simpl. split; [done|]. exists []. rewrite app_nil_r. split; [done|].
    split; [|done]. intros c Hc. by apply elem_of_nil in Hc.
  - destruct (mid_clone e x w Hm) as (Hm1 & _ & Hg1 & Hc1 & Hh1).
    set (c := (clone x w).1) in *. set (w1 := (clone x w).2) in *.
    assert (Hfresh : ∀ st, st ∈ history e → c ∉ objects st).
    { intros st Hst Hin. destruct (mid_stored e w Hm st c Hst Hin). lia. }
    destruct (mid_canvas_add e w1 c Hm1 ltac:(lia) Hfresh) as (Hm2 & _ & Hg2).
    assert (Hp1 : heap w `prefix_of` heap w1) by (by eexists).
    pose proof (canvas_add_heap c w1) as Hp2.
    assert (Hp : heap w `prefix_of` heap (canvas_add c w1)) by (by etrans).
    assert (Hal2 : ∀ o, o ∈ xs → o < length (heap (canvas_add c w1))).
    { intros o Ho. apply prefix_length in Hp.
      assert (o < length (heap w)) by (apply Hal; by right). lia. }
    destruct (IH _ Hm2 Hal2) as (Hp3 & cs & Hcs & Hrng & Hval).
    change (foldl ?f w (x :: xs)) with (foldl f (canvas_add c w1) xs).
    set (w' := foldl _ (canvas_add c w1) xs) in *.
    split; [by etrans|]. exists (c :: cs). split; [|split].
    + rewrite Hcs, Hg2, Hg1. by rewrite <- app_assoc.
    + intros c' Hc'. apply prefix_length in Hp2, Hp3.
      apply elem_of_cons in Hc' as [->|Hc'].
      * lia.
      * apply Hrng in Hc'. apply prefix_length in Hp. lia.
    + rewrite !fmap_cons. apply (f_equal2 (@cons Shape)).
      * rewrite (prefix_lookup_total (heap w1) (heap w') c);
          [|etrans; [exact Hp2 | exact Hp3] | lia].
        unfold w1, c. simpl.
        by rewrite list_lookup_total_middle.
      * rewrite Hval. apply list_fmap_ext. intros i o Ho.
        apply prefix_lookup_total; [done|].
        apply Hal. right. by eapply list_elem_of_lookup_2.
Qed.

(** [loadState] leaves on the surface copies of the shapes of the
    snapshot, in order, and no other object. *)
Lemma loadState_copies e s w :
  mid e w → (∀ o, o ∈ objects s → o < length (heap w)) →
  ∃ w', loadState e (Some s) w = Some w' ∧
        heap w `prefix_of` heap w' ∧
        shapes w' = stored w s ∧
        (∀ c, c ∈ getObjects w' → length (heap w) ≤ c).
Proof.
  intros Hm Hal. unfold loadState. rewrite (mid_canvas e w Hm).
  eexists. split; [done|].
  destruct (removeAll_spec e (getObjects w) w Hm (reflexivity _))
    as (Hm1 & Hg1 & _).
  pose proof (removeAll_heap (getObjects w) w) as Hp1.
  set (w1 := foldl (λ w obj, canvas_remove obj w) w (getObjects w)) in *.
  assert (Hal1 : ∀ o, o ∈ objects s → o < length (heap w1)).
  { intros o Ho. apply prefix_length in Hp1. apply Hal in Ho. lia. }
  pose proof (addAll_copies e (objects s) w1 Hm1 Hal1) as Hadd.
  cbv zeta in Hadd. destruct Hadd as (Hp2 & cs & Hcs & Hrng & Hval).
  split; [by etrans|]. rewrite Hg1, app_nil_l in Hcs. split.
  - unfold shapes, stored. rewrite Hcs, Hval. apply list_fmap_ext.
    intros i o Ho. apply prefix_lookup_total; [done|].
    apply Hal. by eapply list_elem_of_lookup_2.
  - intros c Hc. rewrite Hcs in Hc. apply Hrng in Hc.
    apply prefix_length in Hp1. lia.
Qed.

Lemma at_index_elem {A} (l : list A) i x : at_index l i = Some x → x ∈ l.
Proof.
  unfold at_index. destruct (i <? 0)%Z; [done|].
  apply list_elem_of_lookup_2.
Qed.

(** What a click on undo leaves on the surface. *)
Lemma undo_copies w st :
  inv w → (0 < historyIndex (state w))%Z →
  at_index (history (state w)) (historyIndex (state w) - 1) = Some st →
  ∃ w', step ClickUndo w = Some w' ∧
        shapes w' = stored w st ∧ stored w' st = stored w st ∧
        ∀ obj, obj ∈ getObjects w' → obj ∉ objects st.
Proof.
  intros Hinv Hpos Hst.
  assert (Hc : canvas (state w) = true).
  { destruct (canvas (state w)) eqn:E; [done|].
    destruct (inv_blank w Hinv E) as [Hs _]. rewrite Hs in Hpos.
    simpl in Hpos. lia. }
  pose proof (at_index_elem _ _ _ Hst) as Hin.
  assert (Hal : ∀ o, o ∈ objects st → o < length (heap w)).
  { intros o Ho. by destruct (inv_stored w Hinv st o Hin Ho). }
  pose proof (mid_setHistoryIndex _ (historyIndex (state w) - 1) w
                (inv_mid w Hinv Hc)) as Hm.
  destruct (loadState_copies _ st _ Hm Hal) as (w1 & Hload & Hp & Hsh & Hnew).
  exists (commit w1). split; [|split; [|split]].
  - simpl. unfold undo.
    destruct (Z.ltb_spec 0 (historyIndex (state w))); [|lia].
    by rewrite Hst, Hload.
  - exact Hsh.
  - unfold stored. apply list_fmap_ext. intros i o Ho.
    apply (prefix_lookup_total (heap w) (heap w1) o Hp).
    apply Hal. by eapply list_elem_of_lookup_2.
  - intros obj Hobj Hobj'. apply Hnew in Hobj. apply Hal in Hobj'.
    simpl in Hobj. lia.
Qed.

(** C7: the snapshots are isolated from the surface.  No object on the
    surface, those re-added by [loadState] included, is an object of a
    stored snapshot; writing to an object on the surface changes the shapes
    of no stored snapshot; after the user modified an object on the
    surface, every snapshot that was in the log is still there with the
    shapes it had; and the objects [loadState] puts on the surface on undo
    are new objects with the shapes of the snapshot, which keeps them. *)
Theorem C7_snapshots_are_isolated w :
  reachable w →
  (∀ obj st, obj ∈ getObjects w → st ∈ history (state w) →
             obj ∉ objects st) ∧
  (∀ obj s st, obj ∈ getObjects w → st ∈ history (state w) →
               stored (set_heap (<[obj := s]> (heap w)) w) st = stored w st) ∧
  (∀ obj s, ∃ w',
      step (Drag obj s) w = Some w' ∧
      ∀ st, st ∈ history (state w) →
            st ∈ history (state w') ∧ stored w' st = stored w st) ∧
  (∀ st, (0 < historyIndex (state w))%Z →
         at_index (history (state w)) (historyIndex (state w) - 1) = Some st →
         ∃ w', step ClickUndo w = Some w' ∧
               shapes w' = stored w st ∧ stored w' st = stored w st ∧
               ∀ obj, obj ∈ getObjects w' → obj ∉ objects st).
Proof.
  intros Hr. apply reachable_inv in Hr.
  assert (Hsep : ∀ obj st, obj ∈ getObjects w → st ∈ history (state w) →
                           obj ∉ objects st).
  { intros obj st Ho Hst Hin. by destruct (inv_stored w Hr st obj Hst Hin). }
  assert (Hwrite : ∀ obj s st l,
             obj ∈ getObjects w → st ∈ history (state w) → l ∈ objects st →
             <[obj := s]> (heap w) !! l = heap w !! l).
  { intros obj s st l Ho Hst Hl. apply list_lookup_insert_ne.
    intros ->. by apply (Hsep l st). }
  split; [done|]. split; [|split].
  - intros obj s st Ho Hst. apply stored_ext. intros l Hl. simpl.
    by apply (Hwrite obj s st).
  - intros obj s. simpl.
    destruct (decide (obj ∈ getObjects w)) as [Ho|_]; [|by exists w].
    eexists. split; [done|]. intros st Hst.
    destruct (step_drag w obj s Hr Ho) as (_ & s' & Hs'). split.
    + rewrite Hs'. simpl. apply elem_of_app. by left.
    + assert (Hc : canvas (state w) = true).
      { apply inv_published; [done|]. intros E. rewrite E in Ho.
        by apply elem_of_nil in Ho. }
      rewrite (fire_listener (state w))
        by (simpl; by rewrite (inv_listeners w Hr), Hc).
      destruct (saveState_spec (state w)
                  (set_heap (<[obj := s]> (heap w)) w) Hc) as (ext & -> & _).
      apply stored_ext. intros l Hl. simpl.
      destruct (inv_stored w Hr st l Hst Hl) as [Hlt _].
      rewrite lookup_app_l by (by rewrite length_insert).
      by apply (Hwrite obj s st).
  - intros st. by apply undo_copies.
Qed.

Lemma C7_witness :
  reachable afterUndo ∧
  (∀ obj st, obj ∈ getObjects afterUndo → st ∈ history (state afterUndo) →
             obj ∉ objects st) ∧
  (∀ obj s st, obj ∈ getObjects afterUndo → st ∈ history (state afterUndo) →
               stored (set_heap (<[obj := s]> (heap afterUndo)) afterUndo) st
               = stored afterUndo st) ∧
  (∀ obj s, ∃ w',
      step (Drag obj s) afterUndo = Some w' ∧
      ∀ st, st ∈ history (state afterUndo) →
            st ∈ history (state w') ∧ stored w' st = stored afterUndo st) ∧
  (∃ w', step ClickUndo afterUndo = Some w' ∧
         shapes w' = [newRect; newCircle] ∧
         stored w' (mkHistoryState [3; 4] 0) = [newRect; newCircle]).
Proof.
  assert (Hr : reachable afterUndo)
    by reach [ImageLoad; ClickAddRectangle; ClickAddCircle; ClickUndo].
  destruct (C7_snapshots_are_isolated afterUndo Hr) as (H1 & H2 & H3 & H4).
  split; [exact Hr|]. split; [exact H1|]. split; [exact H2|].
  split; [exact H3|].
  assert (Hpos : (0 < historyIndex (state afterUndo))%Z)
    by (vm_compute; reflexivity).
  assert (Hst : at_index (history (state afterUndo))
                         (historyIndex (state afterUndo) - 1)
                = Some (mkHistoryState [3; 4] 0)) by (vm_compute; reflexivity).
  destruct (H4 _ Hpos Hst) as (w' & Hstep & Hsh & Hkeep & _).
  exists w'. split; [exact Hstep|]. split.
  - rewrite Hsh. vm_compute. reflexivity.
  - rewrite Hkeep. vm_compute. reflexivity.
Defined.

(** * Where the component departs from its description *)

(** Whatever the log, on a page between two events the cursor is on the
    last snapshot: it never is strictly inside the log. *)
Lemma reachable_cursor_last w :
  reachable w →
  historyIndex (state w) = (Z.of_nat (length (history (state w))) - 1)%Z.
Proof. intros Hr. by apply inv_cursor, reachable_inv. Qed.

(** A click on undo that finds the cursor above 0 appends a snapshot to
    the log and moves the cursor forward, onto it. *)
Lemma undo_appends w :
  reachable w → (0 < historyIndex (state w))%Z →
  ∃ w' s, step ClickUndo w = Some w' ∧
          history (state w') = history (state w) ++ [s] ∧
          historyIndex (state w') = (historyIndex (state w) + 1)%Z.
Proof.
  intros Hr Hpos. apply reachable_inv in Hr.
  destruct (step_spec ClickUndo w Hr) as (w' & Hstep & _ & Happ).
  assert (Hc : canvas (state w) = true).
  { destruct (canvas (state w)) eqn:E; [done|].
    destruct (inv_blank w Hr E) as [Hs _]. rewrite Hs in Hpos.
    simpl in Hpos. lia. }
  destruct (Happ (conj Hc Hpos)) as [s Hs].
  exists w', s. split; [done|]. rewrite Hs. simpl. split; [done|].
  rewrite (inv_cursor w Hr). lia.
Qed.

(** C6, the component at the input where it departs from the claim: the
    callback of the background image runs [saveState] of the first render,
    in which [canvas] still is [null], so it captures nothing; after the
    image arrived the log is empty, and after [addRectangle()] and
    [addCircle()] it has two snapshots, not three, with the cursor at 1,
    not 2. *)
Theorem C6_image_load_captures_nothing :
  (∀ w, imageLoaded initialState w = setCanvas w) ∧
  (∃ w, step ImageLoad (mount true) = Some w ∧
        canvas (state w) = true ∧
        history (state w) = [] ∧ historyIndex (state w) = (-1)%Z) ∧
  (∃ w, run [ImageLoad; ClickAddRectangle; ClickAddCircle] (mount true)
          = Some w ∧
        shapes w = [newRect; newCircle] ∧
        length (history (state w)) = 2 ∧ historyIndex (state w) = 1%Z).
Proof.
  split; [done|]. split.
  - eexists. split; [vm_compute; reflexivity|]. done.
  - eexists. split; [vm_compute; reflexivity|]. done.
Qed.

(** C3, the component at the input where it departs from the claim: the
    [add] and [remove] calls of [loadState] fire the listeners, which run
    [saveState].  A click on undo with two snapshots in the log leaves
    three and moves the cursor from 1 to 2; a click on redo with the cursor
    in the middle of three snapshots puts a new snapshot in the place of
    the last one. *)
Theorem C3_undo_and_redo_write_the_log :
  (∃ w w',
     run [ImageLoad; ClickAddRectangle; ClickAddCircle] (mount true) = Some w ∧
     step ClickUndo w = Some w' ∧
     length (history (state w)) = 2 ∧ historyIndex (state w) = 1%Z ∧
     length (history (state w')) = 3 ∧ historyIndex (state w') = 2%Z) ∧
  (∃ w',
     step ClickRedo midLog = Some w' ∧
     history (state midLog) !! 2 = Some (mkHistoryState [3; 4; 5] 30) ∧
     history (state w') !! 2 = Some (mkHistoryState [15; 16; 17] 40)).
Proof.
  split.
  - eexists. eexists. split; [vm_compute; reflexivity|].
    split; [vm_compute; reflexivity|]. done.
  - eexists. split; [vm_compute; reflexivity|]. done.
Qed.

(** * Further properties of the component *)

(** ** What a capture stores *)

Lemma cloneAll_values objs : ∀ w,
  (∀ o, o ∈ objs → o < length (heap w)) →
  cloneAll objs w
  = (seq (length (heap w)) (length objs),
     set_heap (heap w ++ ((λ o : loc, heap w !!! o) <$> objs)) w).
Proof.
  induction objs as [|o objs IH]; intros w Hal; simpl.
  - rewrite app_nil_r. by destruct w.
  - rewrite IH.
    + simpl. rewrite length_app. simpl.
      replace (length (heap w) + 1) with (S (length (heap w))) by lia.
      f_equal. unfold set_heap. simpl. f_equal. rewrite <- app_assoc. simpl.
      f_equal. f_equal. apply list_fmap_ext. intros i o' Ho'.
      apply lookup_total_app_l. apply Hal. right.
      by eapply list_elem_of_lookup_2.
    + intros o' Ho'. simpl. rewrite length_app.
      assert (o' < length (heap w)) by (apply Hal; by right). lia.
Qed.

Lemma saveState_values e w :
  canvas e = true → (∀ o, o ∈ getObjects w → o < length (heap w)) →
  saveState e w =
    setHistoryIndex (Z.of_nat (length (slice0 (history e) (historyIndex e + 1))))
      (setHistory (slice0 (history e) (historyIndex e + 1)
                     ++ [mkHistoryState (seq (length (heap w))
                                             (length (getObjects w)))
                                        (clock w)])
         (set_heap (heap w ++ shapes w) w)).
Proof.
  intros Hc Hal. unfold saveState. rewrite Hc.
  by rewrite (cloneAll_values _ w Hal).
Qed.

Lemma lookup_total_appended (h ext : list Shape) :
  (λ o : loc, (h ++ ext) !!! o) <$> seq (length h) (length ext) = ext.
Proof.
  revert h. induction ext as [|x ext IH]; intros h; simpl; [done|].
  rewrite list_lookup_total_middle by done. f_equal.
  specialize (IH (h ++ [x])). rewrite <- app_assoc, length_app in IH.
  simpl in IH. by replace (length h + 1) with (S (length h)) in IH by lia.
Qed.

Lemma values_prefix (h1 h2 : list Shape) (ls : list loc) :
  h1 `prefix_of` h2 → (∀ l, l ∈ ls → l < length h1) →
  (λ o : loc, h2 !!! o) <$> ls = (λ o : loc, h1 !!! o) <$> ls.
Proof.
  intros Hp Hal. apply list_fmap_ext. intros i l Hl.
  apply prefix_lookup_total; [done|]. apply Hal.
  by eapply list_elem_of_lookup_2.
Qed.

Lemma getObjects_eq w w' : surface w' = surface w → getObjects w' = getObjects w.
Proof. unfold getObjects. by intros ->. Qed.

Section Capture.

(** The size of the heap when the callback started, and its render. *)
Variables (n0 : nat) (e : Env).

Lemma mid2_saveState w :
  mid2 n0 e w →
  mid2 n0 e (saveState e w) ∧ kept n0 e (saveState e w) ∧
  surface (saveState e w) = surface w.
Proof.
  intros [Hm Hh Hnd].
  destruct (mid_saveState e w Hm) as (Hm1 & _ & Hsf).
  pose proof (saveState_heap e w) as Hp.
  split; [|split; [|done]].
  - split; [done| |].
    + apply prefix_length in Hp. lia.
    + by rewrite (getObjects_eq w).
  - rewrite (saveState_values e w (mid_canvas e w Hm) (mid_live e w Hm)).
    eexists. split; [done|]. simpl. split; [|split].
    + unfold stored, shapes at 2. simpl.
      replace (length (getObjects w)) with (length (shapes w))
        by (unfold shapes; by rewrite length_fmap).
      rewrite lookup_total_appended. unfold shapes. simpl.
      symmetry. apply values_prefix; [by eexists | apply (mid_live e w Hm)].
    + apply NoDup_seq.
    + intros l Hl. apply elem_of_seq in Hl. rewrite length_app.
      unfold shapes. rewrite length_fmap. lia.
Qed.

Lemma mid2_canvas_add w obj :
  mid2 n0 e w → obj < length (heap w) → obj ∉ getObjects w →
  (∀ st, st ∈ history e → obj ∉ objects st) →
  mid2 n0 e (canvas_add obj w) ∧ kept n0 e (canvas_add obj w) ∧
  getObjects (canvas_add obj w) = getObjects w ++ [obj].
Proof.
  intros [Hm Hh Hnd] Hobj Hnew Hfresh.
  destruct (mid_canvas_add e w obj Hm Hobj Hfresh) as (_ & _ & Hg).
  destruct (mid_surface e w Hm) as [f Hf].
  unfold canvas_add in *. rewrite Hf in *.
  set (w1 := set_surface _ w) in *.
  assert (Hg1 : getObjects w1 = getObjects w ++ [obj]).
  { unfold getObjects at 1. simpl. by rewrite (getObjects_surface w f). }
  assert (Hm1 : mid2 n0 e w1).
  { split; [|done|].
    - destruct Hm as [Hl Hc Hs Hsf Ho Hq Hlive Hst]. split; simpl; try done.
      + intros l. rewrite Hg1. intros Hin.
        apply elem_of_app in Hin as [Hin|Hin]; [by apply Hlive|].
        apply list_elem_of_singleton in Hin. by subst.
      + intros st l H1 H2. destruct (Hst st l H1 H2) as [? Hn].
        split; [done|]. rewrite Hg1. intros Hin.
        apply elem_of_app in Hin as [Hin|Hin]; [done|].
        apply list_elem_of_singleton in Hin. subst. by apply (Hfresh st).
    - rewrite Hg1. apply list.NoDup_app. split; [done|]. split.
      + intros x Hx Hx'. apply list_elem_of_singleton in Hx'. by subst.
      + apply NoDup_singleton. }
  rewrite (fire_listener e) in * by apply Hm.
  destruct (mid2_saveState w1 Hm1) as (H1 & H2 & H3).
  split; [done|]. split; [done|]. by rewrite (getObjects_eq w1).
Qed.

Lemma mid2_canvas_remove w obj :
  mid2 n0 e w → obj ∈ getObjects w →
  mid2 n0 e (canvas_remove obj w) ∧ kept n0 e (canvas_remove obj w).
Proof.
  intros [Hm Hh Hnd] Hin.
  destruct (mid_surface e w Hm) as [f Hf].
  unfold canvas_remove. rewrite Hf.
  rewrite (getObjects_surface w f) in Hin, Hnd by done.
  destruct (indexOf_elem _ _ Hin) as [i Hi]. rewrite Hi.
  set (w1 := set_surface _ w).
  assert (Hg1 : getObjects w1 = delete i (_objects f)) by done.
  assert (Hm1 : mid2 n0 e w1).
  { split; [|done|].
    - destruct Hm as [Hl Hc Hs Hsf Ho Hq Hlive Hst]. split; simpl; try done.
      + intros l. rewrite Hg1. intros Hl'. apply Hlive.
        rewrite (getObjects_surface w f) by done.
        by eapply list_elem_of_delete_inv.
      + intros st l H1 H2. destruct (Hst st l H1 H2) as [? Hn].
        split; [done|]. rewrite Hg1. intros Hl'. apply Hn.
        rewrite (getObjects_surface w f) by done.
        by eapply list_elem_of_delete_inv.
    - rewrite Hg1. eapply sublist_NoDup; [exact Hnd | apply sublist_delete]. }
  rewrite (fire_listener e) by apply Hm.
  destruct (mid2_saveState w1 Hm1) as (H1 & H2 & _). by split.
Qed.

Lemma mid2_clone obj w :
  mid2 n0 e w →
  mid2 n0 e (clone obj w).2 ∧ (kept n0 e w → kept n0 e (clone obj w).2).
Proof.
  intros [Hm Hh Hnd].
  destruct (mid_clone e obj w Hm) as (Hm1 & _ & Hg & _ & Hlen).
  split.
  - split; [done | lia | by rewrite Hg].
  - intros (s & Hq & Hv & Hn & Hr). exists s. split; [done|].
    assert (Hp : heap w `prefix_of` heap (clone obj w).2) by (by eexists).
    split; [|split; [done|]].
    + unfold stored, shapes. rewrite Hg.
      rewrite (values_prefix (heap w)); [|done|intros l Hl; by apply Hr].
      rewrite (values_prefix (heap w) _ (getObjects w));
        [done | done | apply (mid_live e w Hm)].
    + intros l Hl. apply Hr in Hl. lia.
Qed.

Lemma mid2_setActiveObject a w :
  mid2 n0 e w →
  mid2 n0 e (setActiveObject a w) ∧
  (kept n0 e w → kept n0 e (setActiveObject a w)).
Proof.
  intros [Hm Hh Hnd].
  destruct (mid_setActiveObject e a w Hm) as (Hm1 & _ & Hg).
  assert (Hhp : heap (setActiveObject a w) = heap w).
  { unfold setActiveObject. by destruct (surface w). }
  assert (Hq : queued (setActiveObject a w) = queued w).
  { unfold setActiveObject. by destruct (surface w). }
  split.
  - split; [done | by rewrite Hhp | by rewrite Hg].
  - intros (s & H1 & H2 & H3 & H4). exists s.
    unfold stored, shapes in *. by rewrite Hq, Hhp, Hg.
Qed.

Lemma mid2_removeAll objs : ∀ w,
  mid2 n0 e w → objs ≡ₚ getObjects w →
  let w' := foldl (λ w obj, canvas_remove obj w) w objs in
  mid2 n0 e w' ∧ (kept n0 e w ∨ objs ≠ [] → kept n0 e w').
Proof.
  induction objs as [|x xs IH]; intros w Hm Hp.
  - simpl. split; [done|]. by intros [?|?].
  - assert (Hx : x ∈ getObjects w).
    { rewrite <- Hp. apply list_elem_of_here. }
    destruct (mid2_canvas_remove w x Hm Hx) as (Hm1 & Hk1).
    destruct (mid_canvas_remove e w x (mid2_mid _ _ _ Hm) Hx) as (_ & _ & Hp1).
    assert (Hp2 : xs ≡ₚ getObjects (canvas_remove x w)).
    { eapply Permutation_cons_inv. by rewrite <- Hp1. }
    destruct (IH _ Hm1 Hp2) as (H1 & H2).
    split; [exact H1|]. intros _. apply H2. by left.
Qed.

Lemma mid2_addAll objs : ∀ w,
  mid2 n0 e w →
  let w' := foldl (λ w obj, let '(c, w') := clone obj w in canvas_add c w')
                  w objs in
  mid2 n0 e w' ∧ (kept n0 e w ∨ objs ≠ [] → kept n0 e w').
Proof.
  induction objs as [|x xs IH]; intros w Hm.
  - simpl. split; [done|]. by intros [?|?].
  - destruct (mid2_clone x w Hm) as (Hm1 & _).
    destruct (mid_clone e x w (mid2_mid _ _ _ Hm)) as (_ & _ & Hg1 & Hc1 & Hh1).
    set (c := (clone x w).1) in *. set (w1 := (clone x w).2) in *.
    assert (Hfresh : ∀ st, st ∈ history e → c ∉ objects st).
    { intros st Hst Hin.
      destruct (mid_stored e w (mid2_mid _ _ _ Hm) st c Hst Hin). lia. }
    assert (Hnew : c ∉ getObjects w1).
    { rewrite Hg1. intros Hin.
      apply (mid_live e w (mid2_mid _ _ _ Hm)) in Hin. lia. }
    destruct (mid2_canvas_add w1 c Hm1 ltac:(lia) Hnew Hfresh)
      as (Hm2 & Hk2 & _).
    destruct (IH _ Hm2) as (H1 & H2).
    split; [exact H1|]. intros _. apply H2. by left.
Qed.

Lemma mid2_loadState s w w' :
  mid2 n0 e w → loadState e (Some s) w = Some w' →
  mid2 n0 e w' ∧ (¬ (getObjects w = [] ∧ objects s = []) → kept n0 e w').
Proof.
  intros Hm. unfold loadState. rewrite (mid_canvas e w (mid2_mid _ _ _ Hm)).
  intros H. inversion H; subst w'; clear H.
  destruct (mid2_removeAll (getObjects w) w Hm (reflexivity _)) as (Hm1 & Hk1).
  set (w1 := foldl (λ w obj, canvas_remove obj w) w (getObjects w)) in *.
  destruct (mid2_addAll (objects s) w1 Hm1) as (Hm2 & Hk2).
  split; [exact Hm2|]. intros Hne. apply Hk2.
  destruct (objects s) as [|p ps]; [|by right].
  left. apply Hk1. right. intros E. by apply Hne.
Qed.

End Capture.

(** ** The second invariant *)

Lemma inv_mid2 w :
  inv w → inv2 w → canvas (state w) = true →
  mid2 (length (heap w)) (state w) w.
Proof.
  intros Hinv Hinv2 Hc. split; [by apply inv_mid | done | apply Hinv2].
Qed.

Lemma inv2_same w w' :
  inv2 w → history (state w') = history (state w) →
  getObjects w' = getObjects w → heap w' = heap w → inv2 w'.
Proof.
  intros [H1 H2 H3 H4] Hh Hg Hp.
  split; unfold stored, shapes in *; rewrite ?Hh, ?Hg, ?Hp; done.
Qed.

Lemma commit_kept w w1 :
  inv w → inv2 w → canvas (state w) = true →
  mid2 (length (heap w)) (state w) w1 → kept (length (heap w)) (state w) w1 →
  inv2 (commit w1).
Proof.
  intros Hinv Hinv2 Hc Hm (s & Hq & Hv & Hn & Hr).
  rewrite (inv_cursor w Hinv), slice0_all in Hq.
  assert (Hh : history (state (commit w1)) = history (state w) ++ [s]).
  { unfold commit. simpl. by rewrite Hq. }
  split; rewrite ?Hh.
  - apply (mid2_nodup _ _ _ Hm).
  - intros s'. rewrite last_snoc. intros E. inversion E; subst s'. exact Hv.
  - intros st Hst. apply elem_of_app in Hst as [Hst|Hst].
    + by apply (inv2_snapshot w Hinv2).
    + apply list_elem_of_singleton in Hst. by subst.
  - intros i j si sj a b Hij Hi Hj Ha Hb.
    pose proof (lookup_lt_Some _ _ _ Hj) as Hjb.
    rewrite length_app in Hjb. simpl in Hjb.
    rewrite lookup_app_l in Hi by lia.
    destruct (decide (j < length (history (state w)))) as [Hlt|Hge].
    + rewrite lookup_app_l in Hj by lia.
      by apply (inv2_ordered w Hinv2 i j si sj).
    + rewrite lookup_app_r in Hj by lia.
      replace (j - length (history (state w))) with 0 in Hj by lia.
      simpl in Hj. inversion Hj; subst sj.
      apply Hr in Hb.
      assert (Hsi : si ∈ history (state w)) by by eapply list_elem_of_lookup_2.
      destruct (inv_stored w Hinv si a Hsi Ha). lia.
Qed.

Lemma mid2_set_heap n0 e hp w :
  mid2 n0 e w → length (heap w) ≤ length hp →
  mid2 n0 e (set_heap hp w).
Proof.
  intros [[Hl Hc Hs Hsf Ho Hq Hlive Hst] Hh Hnd] Hlen.
  split; [|simpl; lia|done]. split; simpl; try done.
  - intros l Hin. apply Hlive in Hin. lia.
  - intros st l H1 H2. destruct (Hst st l H1 H2). split; [lia|done].
Qed.

Lemma mid2_setHistoryIndex n0 e i w :
  mid2 n0 e w → mid2 n0 e (setHistoryIndex i w).
Proof.
  intros [Hm Hh Hnd]. split; [by apply mid_setHistoryIndex|done|done].
Qed.

Lemma addShape_kept n0 e s w :
  mid2 n0 e w →
  mid2 n0 e (addShape e s w) ∧ kept n0 e (addShape e s w).
Proof.
  intros Hm. unfold addShape. rewrite (mid_canvas e w (mid2_mid _ _ _ Hm)).
  set (w1 := set_heap (heap w ++ [s]) w).
  assert (Hlen : length (heap w1) = S (length (heap w))).
  { unfold w1. simpl. rewrite length_app. simpl. lia. }
  assert (Hm1 : mid2 n0 e w1).
  { apply mid2_set_heap; [done|]. rewrite length_app. lia. }
  assert (Hfresh : ∀ st, st ∈ history e → length (heap w) ∉ objects st).
  { intros st Hst Hin.
    destruct (mid_stored e w (mid2_mid _ _ _ Hm) st _ Hst Hin). lia. }
  assert (Hnew : length (heap w) ∉ getObjects w1).
  { intros Hin. apply (mid_live e w (mid2_mid _ _ _ Hm)) in Hin. lia. }
  assert (Hlt : length (heap w) < length (heap w1)) by lia.
  destruct (mid2_canvas_add n0 e w1 (length (heap w)) Hm1 Hlt Hnew Hfresh)
    as (Hm2 & Hk2 & _).
  destruct (mid2_setActiveObject n0 e (Some (length (heap w))) _ Hm2)
    as (Hm3 & Hk3).
  split; [done | by apply Hk3].
Qed.

(** A click on undo with the cursor above 0 finds a snapshot to load, and
    something to remove from the surface or to put on it. *)
Lemma undo_fires w :
  inv w → (0 < historyIndex (state w))%Z →
  canvas (state w) = true ∧
  ∃ st, at_index (history (state w)) (historyIndex (state w) - 1) = Some st ∧
        ¬ (getObjects w = [] ∧ objects st = []).
Proof.
  intros Hinv Hpos.
  assert (Hc : canvas (state w) = true).
  { destruct (canvas (state w)) eqn:E; [done|].
    destruct (inv_blank w Hinv E) as [Hs _]. rewrite Hs in Hpos.
    simpl in Hpos. lia. }
  split; [done|].
  pose proof (inv_cursor w Hinv) as Hcur.
  set (h := history (state w)) in *.
  assert (Hlen : 2 ≤ length h) by lia.
  replace (historyIndex (state w) - 1)%Z with (Z.of_nat (length h - 2)) by lia.
  rewrite at_index_nat.
  destruct (lookup_lt_is_Some_2 h (length h - 2) ltac:(lia)) as [s Hs].
  destruct (lookup_lt_is_Some_2 h (length h - 1) ltac:(lia)) as [s' Hs'].
  exists s. split; [done|]. intros [E1 E2].
  apply (inv_adjacent w Hinv (length h - 2) s s'); try done.
  - fold h. by replace (S (length h - 2)) with (length h - 1) by lia.
  - apply length_zero_nil.
    assert (Hl : length (getObjects w) = length (objects s')).
    { rewrite (inv_last w Hinv). unfold lastObjects. rewrite last_lookup.
      fold h. replace (pred (length h)) with (length h - 1) by lia.
      by rewrite Hs'. }
    by rewrite <- Hl, E1.
Qed.

Lemma setActiveObject_frame a w :
  getObjects (setActiveObject a w) = getObjects w ∧
  heap (setActiveObject a w) = heap w ∧
  state (setActiveObject a w) = state w ∧
  getActiveObject (setActiveObject a w)
    = match surface w with Some _ => a | None => None end.
Proof.
  unfold setActiveObject, getObjects, getActiveObject.
  destruct (surface w) eqn:E; simpl; rewrite ?E; repeat split.
Qed.

Lemma step_inv2 e w w' :
  inv w → inv2 w → step e w = Some w' → inv2 w'.
Proof.
  intros Hinv Hinv2. destruct e; simpl.
  - pose proof (inv_onLoad w Hinv) as Ho.
    destruct (onLoad w) as [env|]; [|by intros [= <-]].
    destruct Ho as (-> & Hc & _). intros [= <-].
    apply (inv2_same w); try done.
    unfold imageLoaded, saveState, commit; simpl.
    by rewrite (inv_queued w Hinv).
  - intros [= <-]. unfold addRectangle.
    destruct (canvas (state w)) eqn:Hc.
    + destruct (addShape_kept _ _ newRect w (inv_mid2 w Hinv Hinv2 Hc)).
      by apply (commit_kept w).
    + unfold addShape. by rewrite Hc, inv_commit_id.
  - intros [= <-]. unfold addCircle.
    destruct (canvas (state w)) eqn:Hc.
    + destruct (addShape_kept _ _ newCircle w (inv_mid2 w Hinv Hinv2 Hc)).
      by apply (commit_kept w).
    + unfold addShape. by rewrite Hc, inv_commit_id.
  - intros [= <-]. unfold deleteSelected.
    destruct (canvas (state w)) eqn:Hc; [|by rewrite inv_commit_id].
    destruct (getActiveObject w) as [a|]; [|by rewrite inv_commit_id].
    destruct (decide (a ∈ getObjects w)) as [Hin|Hout].
    + destruct (mid2_canvas_remove _ _ w a (inv_mid2 w Hinv Hinv2 Hc) Hin).
      by apply (commit_kept w).
    + by rewrite canvas_remove_notin, inv_commit_id.
  - unfold undo.
    destruct (Z.ltb_spec 0 (historyIndex (state w))) as [Hpos|Hle];
      [|simpl; intros [= <-]; by rewrite inv_commit_id].
    destruct (undo_fires w Hinv Hpos) as (Hc & st & Hst & Hne).
    rewrite Hst.
    destruct (loadState (state w) (Some st) _) as [w1|] eqn:Hload; [|done].
    simpl. intros [= <-].
    pose proof (mid2_setHistoryIndex _ _ (historyIndex (state w) - 1) w
                  (inv_mid2 w Hinv Hinv2 Hc)) as Hm.
    destruct (mid2_loadState _ _ st _ w1 Hm Hload) as (Hm1 & Hk1).
    apply (commit_kept w); try done. by apply Hk1.
  - rewrite (step_redo w Hinv). simpl. intros [= <-]. by rewrite inv_commit_id.
  - intros [= <-]. unfold exportCanvas.
    destruct (canvas (state w)); [|by rewrite inv_commit_id].
    destruct (tainted w); (apply (inv2_same w); try done);
      unfold commit; simpl; by rewrite (inv_queued w Hinv).
  - destruct (decide (obj ∈ getObjects w)) as [Hin|Hout]; [|by intros [= <-]].
    intros [= <-].
    assert (Hc : canvas (state w) = true).
    { apply inv_published; [done|]. intros E. rewrite E in Hin.
      by apply elem_of_nil in Hin. }
    pose proof (inv_mid2 w Hinv Hinv2 Hc) as Hm.
    assert (Hm0 : mid2 (length (heap w)) (state w)
                    (set_heap (<[obj := s]> (heap w)) w)).
    { apply mid2_set_heap; [done|]. by rewrite length_insert. }
    rewrite (fire_listener (state w)) by apply Hm.
    destruct (mid2_saveState _ _ _ Hm0) as (Hm1 & Hk1 & _).
    by apply (commit_kept w).
  - destruct (decide (obj ∈ getObjects w)); intros [= <-]; [|done].
    destruct (setActiveObject_frame (Some obj) w) as (H1 & H2 & H3 & _).
    apply (inv2_same w); [done | by rewrite H3 | done | done].
  - intros [= <-].
    destruct (setActiveObject_frame None w) as (H1 & H2 & H3 & _).
    apply (inv2_same w); [done | by rewrite H3 | done | done].
  - intros [= <-]. by apply (inv2_same w).
Qed.

Lemma inv2_mount b : inv2 (mount b).
Proof.
  assert (Hg : getObjects (mount b) = []) by by destruct b.
  split; rewrite ?Hg; simpl; try done.
  - apply NoDup_nil_2.
  - intros st H. by apply elem_of_nil in H.
Qed.

Lemma reachable_inv2 w : reachable w → inv2 w.
Proof.
  induction 1 as [b|e w w' Hr IH Hstep]; [apply inv2_mount|].
  apply (step_inv2 e w w'); [by apply reachable_inv | done | done].
Qed.

(** ** What the callbacks leave alone *)

Lemma saveState_frame e w :
  surface (saveState e w) = surface w ∧
  ledger (saveState e w) = ledger w.
Proof.
  unfold saveState. destruct (canvas e); [|done].
  destruct (cloneAll _ _) as [cs w1] eqn:E.
  by apply cloneAll_spec in E as (ext & -> & _).
Qed.

Lemma fire_frame ev target w :
  surface (fire ev target w) = surface w ∧
  ledger (fire ev target w) = ledger w.
Proof.
  unfold fire. destruct (listeners w) as [e|]; [|done].
  destruct ev, target; simpl; first [apply saveState_frame | done].
Qed.

Lemma canvas_add_ledger obj w : ledger (canvas_add obj w) = ledger w.
Proof.
  unfold canvas_add. destruct (surface w); [|done].
  apply (fire_frame _ _ (set_surface _ w)).
Qed.

Lemma canvas_remove_ledger obj w :
  ledger (canvas_remove obj w) = ledger w.
Proof.
  unfold canvas_remove. destruct (surface w) as [f|]; [|done].
  destruct (indexOf obj (_objects f)); [|done].
  apply (fire_frame _ _ (set_surface _ w)).
Qed.

Lemma addAll_heap objs : ∀ w,
  heap w `prefix_of`
  heap (foldl (λ w obj, let '(c, w') := clone obj w in canvas_add c w') w objs).
Proof.
  induction objs as [|x xs IH]; intros w; [done|].
  change (foldl ?f w (x :: xs))
    with (foldl f (canvas_add (clone x w).1 (clone x w).2) xs).
  etrans; [|apply IH]. etrans; [|apply canvas_add_heap]. by eexists.
Qed.

Lemma removeAll_ledger objs : ∀ w,
  ledger (foldl (λ w obj, canvas_remove obj w) w objs) = ledger w.
Proof.
  induction objs as [|x xs IH]; intros w; [done|]. simpl.
  by rewrite IH, canvas_remove_ledger.
Qed.

Lemma addAll_ledger objs : ∀ w,
  ledger (foldl (λ w obj, let '(c, w') := clone obj w in canvas_add c w')
                   w objs)
  = ledger w.
Proof.
  induction objs as [|x xs IH]; intros w; [done|].
  change (foldl ?f w (x :: xs))
    with (foldl f (canvas_add (clone x w).1 (clone x w).2) xs).
  by rewrite IH, canvas_add_ledger.
Qed.

Lemma loadState_frame e st w w' :
  loadState e st w = Some w' →
  heap w `prefix_of` heap w' ∧ ledger w' = ledger w.
Proof.
  unfold loadState. destruct (canvas e); [|by intros [= <-]].
  destruct st as [s|]; [|done]. intros [= <-]. split.
  - etrans; [apply (removeAll_heap (getObjects w))|apply addAll_heap].
  - by rewrite addAll_ledger, removeAll_ledger.
Qed.

Lemma addShape_frame e s w :
  heap w `prefix_of` heap (addShape e s w) ∧
  ledger (addShape e s w) = ledger w.
Proof.
  unfold addShape. destruct (canvas e); [|done].
  set (w1 := canvas_add _ _).
  destruct (setActiveObject_frame (Some (length (heap w))) w1) as (_ & -> & _).
  assert (Hd : ledger (setActiveObject (Some (length (heap w))) w1)
               = ledger w1).
  { unfold setActiveObject. by destruct (surface w1). }
  rewrite Hd. unfold w1. split.
  - etrans; [|apply canvas_add_heap]. by eexists.
  - by rewrite canvas_add_ledger.
Qed.

Lemma undo_frame e w w' :
  undo e w = Some w' → heap w `prefix_of` heap w' ∧ ledger w' = ledger w.
Proof.
  unfold undo. destruct (0 <? historyIndex e)%Z; [|by intros [= <-]].
  intros H. by apply loadState_frame in H.
Qed.

Lemma redo_frame e w w' :
  redo e w = Some w' → heap w `prefix_of` heap w' ∧ ledger w' = ledger w.
Proof.
  unfold redo. destruct (_ <? _)%Z; [|by intros [= <-]].
  intros H. by apply loadState_frame in H.
Qed.


(** ** Exceptions and downloads *)












(** An event leaves every object that is not on the surface as it was. *)
Lemma step_heap e w w' :
  step e w = Some w' →
  ∀ l : loc, l < length (heap w) → l ∉ getObjects w →
             heap w' !! l = heap w !! l.
Proof.
  intros Hstep l Hl Hout.
  assert (Hpre : heap w `prefix_of` heap w' → heap w' !! l = heap w !! l).
  { intros Hp. symmetry. by apply prefix_lookup_lt. }
  destruct e; simpl in Hstep.
  - destruct (onLoad w) as [env|]; inversion Hstep; subst; [|done].
    apply Hpre.
    exact (saveState_heap env (setCanvas
             (setBackgroundImage BACKGROUND_IMAGE
                (mkWorld (heap w) (surface w) None (listeners w) (state w)
                         (queued w) (clock w) (downloads w) (background w)
                         (uncaught w))))).
  - inversion Hstep; subst. apply Hpre. apply addShape_frame.
  - inversion Hstep; subst. apply Hpre. apply addShape_frame.
  - inversion Hstep; subst. apply Hpre. simpl. unfold deleteSelected.
    destruct (canvas (state w)); [|done].
    destruct (getActiveObject w); [|done]. apply canvas_remove_heap.
  - destruct (undo (state w) w) as [w1|] eqn:E; [|done].
    inversion Hstep; subst. apply Hpre. simpl. by apply undo_frame in E as [? _].
  - destruct (redo (state w) w) as [w1|] eqn:E; [|done].
    inversion Hstep; subst. apply Hpre. simpl. by apply redo_frame in E as [? _].
  - inversion Hstep; subst. apply Hpre. simpl. unfold exportCanvas.
    destruct (canvas (state w)); [|done]. by destruct (tainted w).
  - destruct (decide (obj ∈ getObjects w)) as [Hin|_];
      inversion Hstep; subst; [|done]. simpl.
    pose proof (fire_heap ObjectModified (Some obj)
                  (set_heap (<[obj := s]> (heap w)) w)) as Hp.
    simpl in Hp.
    rewrite <- (prefix_lookup_lt (<[obj := s]> (heap w)) _ l);
      [|by rewrite length_insert|exact Hp].
    apply list_lookup_insert_ne. intros ->. done.
  - destruct (decide _); inversion Hstep; subst; [|done].
    by destruct (setActiveObject_frame (Some obj) w) as (_ & -> & _).
  - inversion Hstep; subst.
    by destruct (setActiveObject_frame None w) as (_ & -> & _).
  - by inversion Hstep; subst.
Qed.


(** ** The cursor, the buttons and undo *)

(** X1: between two events the cursor is on the last snapshot of the log.
    So the Redo button is always rendered disabled and a click on redo
    leaves the page as it is; the Undo button is disabled exactly when the
    log has at most one snapshot, and a click on undo then leaves the page
    as it is. *)
Theorem redo_is_never_available w :
  reachable w →
  historyIndex (state w) = (Z.of_nat (length (history (state w))) - 1)%Z ∧
  redoDisabled (state w) = true ∧
  step ClickRedo w = Some w ∧
  (undoDisabled (state w) = true ↔ length (history (state w)) ≤ 1) ∧
  (undoDisabled (state w) = true → step ClickUndo w = Some w).
Proof.
  intros Hr. apply reachable_inv in Hr. pose proof (inv_cursor w Hr) as Hc.
  split; [done|]. split; [|split; [|split]].
  - unfold redoDisabled. rewrite Hc. apply Z.geb_le. lia.
  - simpl. rewrite (step_redo w Hr). simpl. by rewrite inv_commit_id.
  - unfold undoDisabled. rewrite Z.leb_le. lia.
  - unfold undoDisabled. rewrite Z.leb_le. intros Hle. simpl. unfold undo.
    destruct (Z.ltb_spec 0 (historyIndex (state w))); [lia|].
    simpl. by rewrite inv_commit_id.
Qed.

Lemma redo_is_never_available_witness :
  reachable afterUndo ∧
  historyIndex (state afterUndo) = 2%Z ∧
  redoDisabled (state afterUndo) = true ∧
  step ClickRedo afterUndo = Some afterUndo ∧
  (reachable oneRectangle ∧ undoDisabled (state oneRectangle) = true ∧
   step ClickUndo oneRectangle = Some oneRectangle).
Proof.
  assert (Hr : reachable afterUndo)
    by reach [ImageLoad; ClickAddRectangle; ClickAddCircle; ClickUndo].
  assert (Hr1 : reachable oneRectangle)
    by reach [ImageLoad; ClickAddRectangle].
  assert (Hd : undoDisabled (state oneRectangle) = true)
    by (vm_compute; reflexivity).
  destruct (redo_is_never_available afterUndo Hr) as (H1 & H2 & H3 & _).
  destruct (redo_is_never_available oneRectangle Hr1) as (_ & _ & _ & _ & H4).
  split; [exact Hr|]. split; [vm_compute; reflexivity|].
  split; [exact H2|]. split; [exact H3|].
  split; [exact Hr1|]. split; [exact Hd | exact (H4 Hd)].
Defined.

(** What a click on undo with the cursor above 0 does. *)
Lemma undo_effect w :
  reachable w → (0 < historyIndex (state w))%Z →
  ∃ st w' s,
    at_index (history (state w)) (historyIndex (state w) - 1) = Some st ∧
    step ClickUndo w = Some w' ∧
    shapes w' = stored w st ∧
    history (state w') = history (state w) ++ [s] ∧
    stored w' s = stored w st ∧
    historyIndex (state w') = (historyIndex (state w) + 1)%Z.
Proof.
  intros Hr Hpos. pose proof (reachable_inv w Hr) as Hinv.
  destruct (undo_fires w Hinv Hpos) as (_ & st & Hst & _).
  destruct (undo_copies w st Hinv Hpos Hst) as (w' & Hstep & Hsh & _).
  destruct (undo_appends w Hr Hpos) as (w'' & s & Hstep' & Hh & Hi).
  rewrite Hstep in Hstep'. inversion Hstep'; subst w''; clear Hstep'.
  exists st, w', s. repeat (split; [done|]). split; [|done].
  assert (Hr' : reachable w') by (by eapply reachable_step).
  rewrite <- Hsh. apply (inv2_mirror w' (reachable_inv2 w' Hr')).
  rewrite Hh. apply last_snoc.
Qed.

(** X2: a click on undo with the cursor above 0 puts the shapes of the
    snapshot before the cursor on the surface, but records this as a new
    snapshot at the end of the log, which keeps all it had, and moves the
    cursor forward onto that snapshot. *)
Theorem undo_shows_the_previous_snapshot_and_appends w :
  reachable w → (0 < historyIndex (state w))%Z →
  ∃ st w' s,
    at_index (history (state w)) (historyIndex (state w) - 1) = Some st ∧
    step ClickUndo w = Some w' ∧
    shapes w' = stored w st ∧
    history (state w') = history (state w) ++ [s] ∧
    stored w' s = stored w st ∧
    historyIndex (state w') = (historyIndex (state w) + 1)%Z.
Proof. apply undo_effect. Qed.

Lemma undo_shows_the_previous_snapshot_and_appends_witness :
  reachable afterUndo ∧ (0 < historyIndex (state afterUndo))%Z ∧
  ∃ st w' s,
    at_index (history (state afterUndo)) (historyIndex (state afterUndo) - 1)
      = Some st ∧
    step ClickUndo afterUndo = Some w' ∧
    shapes w' = stored afterUndo st ∧
    history (state w') = history (state afterUndo) ++ [s] ∧
    stored w' s = stored afterUndo st ∧
    historyIndex (state w') = (historyIndex (state afterUndo) + 1)%Z.
Proof.
  assert (Hr : reachable afterUndo)
    by reach [ImageLoad; ClickAddRectangle; ClickAddCircle; ClickUndo].
  assert (Hpos : (0 < historyIndex (state afterUndo))%Z)
    by (vm_compute; reflexivity).
  split; [exact Hr|]. split; [exact Hpos|].
  exact (undo_shows_the_previous_snapshot_and_appends afterUndo Hr Hpos).
Defined.



Lemma stored_step e w w' st :
  inv w → step e w = Some w' → st ∈ history (state w) →
  stored w' st = stored w st.
Proof.
  intros Hinv Hstep Hst. apply stored_ext. intros l Hl.
  destruct (inv_stored w Hinv st l Hst Hl).
  by apply (step_heap e w w').
Qed.

(** X4: two clicks on undo in a row, the cursor being above 0, leave on
    the surface the shapes of the snapshot that was the last of the log
    before them: the second undo goes back to where the log stood before
    the first.  The log is two snapshots longer and the cursor two
    further. *)
Theorem undo_twice_shows_the_last_snapshot w :
  reachable w → (0 < historyIndex (state w))%Z →
  ∃ st w1 w2,
    list.last (history (state w)) = Some st ∧
    step ClickUndo w = Some w1 ∧ step ClickUndo w1 = Some w2 ∧
    shapes w2 = stored w st ∧
    length (history (state w2)) = length (history (state w)) + 2 ∧
    historyIndex (state w2) = (historyIndex (state w) + 2)%Z.
Proof.
  intros Hr Hpos. pose proof (reachable_inv w Hr) as Hinv.
  destruct (undo_effect w Hr Hpos) as (st & w1 & s1 & _ & Hs1 & _ & Hh1 & _ & Hi1).
  assert (Hr1 : reachable w1) by (by eapply reachable_step).
  assert (Hpos1 : (0 < historyIndex (state w1))%Z) by lia.
  destruct (undo_effect w1 Hr1 Hpos1)
    as (st' & w2 & s2 & Hst' & Hs2 & Hsh2 & Hh2 & _ & Hi2).
  pose proof (inv_cursor w Hinv) as Hcur.
  assert (Hlast : list.last (history (state w)) = Some st').
  { rewrite Hh1, Hi1 in Hst'.
    replace (historyIndex (state w) + 1 - 1)%Z
      with (Z.of_nat (length (history (state w)) - 1)) in Hst' by lia.
    rewrite at_index_nat, lookup_app_l in Hst' by lia.
    rewrite last_lookup.
    by replace (pred (length (history (state w))))
      with (length (history (state w)) - 1) by lia. }
  exists st', w1, w2. split; [done|]. split; [done|]. split; [done|].
  split; [|split].
  - rewrite Hsh2. apply (stored_step ClickUndo w w1 st' Hinv Hs1).
    by apply last_Some_elem_of.
  - rewrite Hh2, Hh1, !length_app. simpl. lia.
  - lia.
Qed.

Lemma undo_twice_shows_the_last_snapshot_witness :
  reachable afterUndo ∧ (0 < historyIndex (state afterUndo))%Z ∧
  ∃ st w1 w2,
    list.last (history (state afterUndo)) = Some st ∧
    step ClickUndo afterUndo = Some w1 ∧ step ClickUndo w1 = Some w2 ∧
    shapes w1 = [newRect; newCircle] ∧
    shapes w2 = stored afterUndo st ∧
    stored afterUndo st = [newRect] ∧
    length (history (state w2)) = length (history (state afterUndo)) + 2 ∧
    historyIndex (state w2) = (historyIndex (state afterUndo) + 2)%Z.
Proof.
  assert (Hr : reachable afterUndo)
    by reach [ImageLoad; ClickAddRectangle; ClickAddCircle; ClickUndo].
  assert (Hpos : (0 < historyIndex (state afterUndo))%Z)
    by (vm_compute; reflexivity).
  split; [exact Hr|]. split; [exact Hpos|].
  destruct (undo_twice_shows_the_last_snapshot afterUndo Hr Hpos)
    as (st & w1 & w2 & H0 & H1 & H2 & H3 & H4 & H5).
  exists st, w1, w2. split; [exact H0|]. split; [exact H1|]. split; [exact H2|].
  split; [|split; [exact H3|split; [|split; [exact H4 | exact H5]]]].
  - vm_compute in H1. injection H1 as <-. vm_compute. reflexivity.
  - vm_compute in H0. injection H0 as <-. vm_compute. reflexivity.
Defined.



(** X8: objects are never shared: no object is on the surface twice, no
    snapshot holds an object twice, and no object is in two snapshots of
    the log. *)
Theorem snapshots_own_their_objects w :
  reachable w →
  NoDup (getObjects w) ∧
  (∀ st, st ∈ history (state w) → NoDup (objects st)) ∧
  (∀ i j si sj a,
     i ≠ j → history (state w) !! i = Some si →
     history (state w) !! j = Some sj →
     a ∈ objects si → a ∉ objects sj).
Proof.
  intros Hr. apply reachable_inv2 in Hr.
  split; [apply Hr|]. split; [apply Hr|].
  intros i j si sj a Hij Hi Hj Ha Ha'.
  destruct (decide (i < j)).
  - pose proof (inv2_ordered w Hr i j si sj a a ltac:(lia) Hi Hj Ha Ha'). lia.
  - pose proof (inv2_ordered w Hr j i sj si a a ltac:(lia) Hj Hi Ha' Ha). lia.
Qed.

Lemma snapshots_own_their_objects_witness :
  reachable afterUndo ∧
  NoDup (getObjects afterUndo) ∧
  (∀ st, st ∈ history (state afterUndo) → NoDup (objects st)) ∧
  length (history (state afterUndo)) = 3 ∧
  (∀ i j si sj a,
     i ≠ j → history (state afterUndo) !! i = Some si →
     history (state afterUndo) !! j = Some sj →
     a ∈ objects si → a ∉ objects sj).
Proof.
  assert (Hr : reachable afterUndo)
    by reach [ImageLoad; ClickAddRectangle; ClickAddCircle; ClickUndo].
  destruct (snapshots_own_their_objects afterUndo Hr) as (H1 & H2 & H3).
  split; [exact Hr|]. split; [exact H1|]. split; [exact H2|].
  split; [vm_compute; reflexivity | exact H3].
Defined.



(** ** Adding, deleting and dragging *)


Lemma canvas_remove_exact obj w f i :
  surface w = Some f → indexOf obj (_objects f) = Some i →
  surface (canvas_remove obj w)
  = Some (mkFabric (delete i (_objects f))
                   (if decide (_activeObject f = Some obj) then None
                    else _activeObject f)).
Proof.
  intros Hf Hi. unfold canvas_remove. rewrite Hf, Hi.
  by destruct (fire_frame ObjectRemoved (Some obj)
                 (set_surface (Some (mkFabric (delete i (_objects f))
                    (if decide (_activeObject f = Some obj) then None
                     else _activeObject f))) w)) as [-> _].
Qed.

Lemma deleteSelected_exact w a :
  inv w → getActiveObject w = Some a → a ∈ getObjects w →
  ∃ i w', indexOf a (getObjects w) = Some i ∧
          step ClickDeleteSelected w = Some w' ∧
          getObjects w' = delete i (getObjects w) ∧
          getActiveObject w' = None ∧
          heap w `prefix_of` heap w' ∧ appended w w'.
Proof.
  intros Hinv Ha Hin.
  assert (Hc : canvas (state w) = true).
  { apply inv_published; [done|]. intros E. rewrite E in Hin.
    by apply elem_of_nil in Hin. }
  destruct (inv_surface w Hinv Hc) as [f Hf].
  rewrite (getObjects_surface w f Hf) in *.
  destruct (indexOf_elem _ _ Hin) as [i Hi].
  exists i. eexists. split; [done|]. split; [done|].
  pose proof (canvas_remove_exact a w f i Hf Hi) as Hsf.
  assert (Hact : _activeObject f = Some a).
  { unfold getActiveObject in Ha. by rewrite Hf in Ha. }
  destruct (decide (_activeObject f = Some a)); [|done].
  unfold deleteSelected. rewrite Hc, Ha.
  split; [|split; [|split]].
  - unfold getObjects. simpl. by rewrite Hsf.
  - unfold getActiveObject. simpl. by rewrite Hsf.
  - apply canvas_remove_heap.
  - destruct (step_deleteSelected w Hinv) as [_ H].
    unfold deleteSelected in H. rewrite Hc, Ha in H. apply H.
    split; [done|]. exists a. split; [done|].
    by rewrite (getObjects_surface w f Hf).
Qed.

Lemma delete_indexOf (l : list loc) a i :
  NoDup l → indexOf a l = Some i →
  delete i l = filter (λ o, o ≠ a) l.
Proof.
  revert i. induction l as [|y l IH]; intros i Hnd Hi; simpl in Hi; [done|].
  apply list.NoDup_cons in Hnd as [Hy Hnd].
  destruct (decide (y = a)) as [->|Hne].
  - inversion Hi; subst i. simpl. rewrite filter_cons_False by (intros H; done).
    symmetry. clear IH Hi Hnd. induction l as [|z l IH]; [done|].
    apply not_elem_of_cons in Hy as [Hz Hy].
    rewrite filter_cons_True by done. f_equal. by apply IH.
  - destruct (indexOf a l) as [j|] eqn:E; inversion Hi; subst i. simpl.
    rewrite filter_cons_True by done. f_equal. by apply IH.
Qed.



(** X7: a click on Delete Selected with the active object on the surface
    takes that object, and nothing else, off the surface, the other
    objects keeping their order and their shapes, and leaves no active
    object, so that a second click does nothing. *)
Theorem delete_removes_the_active_object w a :
  reachable w → getActiveObject w = Some a → a ∈ getObjects w →
  ∃ w', step ClickDeleteSelected w = Some w' ∧
        getObjects w' = filter (λ o, o ≠ a) (getObjects w) ∧
        (a ∉ getObjects w') ∧
        (∀ o, o ∈ getObjects w' → heap w' !! o = heap w !! o) ∧
        getActiveObject w' = None ∧
        step ClickDeleteSelected w' = Some w'.
Proof.
  intros Hr Ha Hin. pose proof (reachable_inv w Hr) as Hinv.
  destruct (deleteSelected_exact w a Hinv Ha Hin)
    as (i & w' & Hi & Hstep & Hg & Hact & Hp & _).
  assert (Hg' : getObjects w' = filter (λ o, o ≠ a) (getObjects w)).
  { rewrite Hg. apply delete_indexOf; [|done].
    apply (inv2_nodup w (reachable_inv2 w Hr)). }
  exists w'. split; [done|]. split; [done|]. split; [|split; [|split]].
  - rewrite Hg'. intros H. apply list_elem_of_filter in H as [H _]. done.
  - intros o Ho. rewrite Hg' in Ho. apply list_elem_of_filter in Ho as [_ Ho].
    symmetry. apply prefix_lookup_lt; [by apply (inv_live w Hinv)|done].
  - done.
  - apply deleteSelected_nothing; [|done].
    apply reachable_inv. by eapply reachable_step.
Qed.

Lemma delete_removes_the_active_object_witness :
  reachable oneRectangle ∧ getActiveObject oneRectangle = Some 0 ∧
  0 ∈ getObjects oneRectangle ∧
  ∃ w', step ClickDeleteSelected oneRectangle = Some w' ∧
        getObjects w' = [] ∧ getActiveObject w' = None ∧
        step ClickDeleteSelected w' = Some w'.
Proof.
  assert (Hr : reachable oneRectangle)
    by reach [ImageLoad; ClickAddRectangle].
  assert (Ha : getActiveObject oneRectangle = Some 0)
    by (vm_compute; reflexivity).
  assert (Hin : 0 ∈ getObjects oneRectangle).
  { replace (getObjects oneRectangle) with [0] by (vm_compute; reflexivity).
    apply list_elem_of_here. }
  split; [exact Hr|]. split; [exact Ha|]. split; [exact Hin|].
  destruct (delete_removes_the_active_object oneRectangle 0 Hr Ha Hin)
    as (w' & H1 & H2 & _ & _ & H3 & H4).
  exists w'. split; [exact H1|]. split; [|split; [exact H3 | exact H4]].
  rewrite H2. vm_compute. reflexivity.
Defined.





(** X11: when the user has modified an object on the surface, the
    listener of [object:modified] appends a snapshot that holds the shapes
    now on the surface, the modified one included; the objects on the
    surface are the same, and only the modified one has a new shape. *)
Theorem modification_is_recorded w obj s :
  reachable w → obj ∈ getObjects w →
  ∃ w' snap,
    step (Drag obj s) w = Some w' ∧
    getObjects w' = getObjects w ∧
    heap w' !! obj = Some s ∧
    (∀ o : loc, o ∈ getObjects w → o ≠ obj → heap w' !! o = heap w !! o) ∧
    history (state w') = history (state w) ++ [snap] ∧
    stored w' snap = shapes w'.
Proof.
  intros Hr Hin. pose proof (reachable_inv w Hr) as Hinv.
  destruct (step_spec (Drag obj s) w Hinv) as (w' & Hstep & _ & Happ).
  assert (Hc : canvas (state w) = true).
  { apply inv_published; [done|]. intros E. rewrite E in Hin.
    by apply elem_of_nil in Hin. }
  destruct (Happ (conj Hc Hin)) as [snap Hsnap].
  exists w', snap. split; [done|].
  assert (Hr' : reachable w') by (by eapply reachable_step).
  assert (Hh : history (state w') = history (state w) ++ [snap])
    by (by rewrite Hsnap).
  pose proof Hstep as Hstep0. simpl in Hstep.
  destruct (decide (obj ∈ getObjects w)); [|done].
  injection Hstep as Hw'.
  rewrite (fire_listener (state w)) in Hw'
    by (simpl; by rewrite (inv_listeners w Hinv), Hc).
  destruct (saveState_spec (state w)
              (set_heap (<[obj := s]> (heap w)) w) Hc) as (ext & Hsave & _).
  rewrite Hsave in Hw'.
  assert (Hheap : heap w' = <[obj := s]> (heap w) ++ ext)
    by (by rewrite <- Hw').
  assert (Hobjs : getObjects w' = getObjects w) by (by rewrite <- Hw').
  split; [done|]. split; [|split; [|split; [done|]]].
  - rewrite Hheap, lookup_app_l by (rewrite length_insert; by apply (inv_live w Hinv)).
    apply list_lookup_insert_eq. by apply (inv_live w Hinv).
  - intros o Ho Hne.
    rewrite Hheap, lookup_app_l by (rewrite length_insert; by apply (inv_live w Hinv)).
    by apply list_lookup_insert_ne.
  - apply (inv2_mirror w' (reachable_inv2 w' Hr')). rewrite Hh.
    apply last_snoc.
Qed.

Lemma modification_is_recorded_witness :
  reachable oneRectangle ∧ 0 ∈ getObjects oneRectangle ∧
  ∃ w' snap,
    step (Drag 0 newCircle) oneRectangle = Some w' ∧
    shapes w' = [newCircle] ∧
    history (state w') = history (state oneRectangle) ++ [snap] ∧
    stored w' snap = [newCircle].
Proof.
  assert (Hr : reachable oneRectangle)
    by reach [ImageLoad; ClickAddRectangle].
  assert (Hin : 0 ∈ getObjects oneRectangle).
  { replace (getObjects oneRectangle) with [0] by (vm_compute; reflexivity).
    apply list_elem_of_here. }
  split; [exact Hr|]. split; [exact Hin|].
  destruct (modification_is_recorded oneRectangle 0 newCircle Hr Hin)
    as (w' & snap & H1 & H2 & H3 & _ & H4 & H5).
  assert (Hsh : shapes w' = [newCircle]).
  { unfold shapes. rewrite H2.
    replace (getObjects oneRectangle) with [0] by (vm_compute; reflexivity).
    simpl. by rewrite (list_lookup_total_correct _ _ _ H3). }
  exists w', snap. split; [exact H1|]. split; [exact Hsh|].
  split; [exact H4|]. by rewrite H5.
Defined.

(** X12: what undo takes back.  After an event that added, modified or
    removed objects, a click on undo puts on the surface the shapes of the
    snapshot that was the last of the log before the event.  The first
    edit after the image arrived, made on an empty log, cannot be taken
    back: the Undo button is disabled and undo leaves the page as it is. *)
Theorem undo_shows_the_snapshot_before_the_edit w e :
  reachable w → edits e w →
  ∃ w1, step e w = Some w1 ∧
        (∀ st, list.last (history (state w)) = Some st →
               ∃ w2, step ClickUndo w1 = Some w2 ∧ shapes w2 = stored w st) ∧
        (history (state w) = [] →
         undoDisabled (state w1) = true ∧ step ClickUndo w1 = Some w1).
Proof.
  intros Hr He. pose proof (reachable_inv w Hr) as Hinv.
  destruct (step_spec e w Hinv) as (w1 & Hstep & Hinv1 & Happ).
  destruct (Happ He) as [s1 Hs1].
  assert (Hr1 : reachable w1) by (by eapply reachable_step).
  assert (Hh1 : history (state w1) = history (state w) ++ [s1])
    by (by rewrite Hs1).
  assert (Hi1 : historyIndex (state w1)
                = Z.of_nat (length (history (state w)))) by (by rewrite Hs1).
  exists w1. split; [done|]. split.
  - intros st0 Hlast0.
    assert (Hlen : 0 < length (history (state w)))
      by (destruct (history (state w)); [done | simpl; lia]).
    assert (Hpos1 : (0 < historyIndex (state w1))%Z) by lia.
    destruct (undo_effect w1 Hr1 Hpos1)
      as (st & w2 & s2 & Hst & Hs2 & Hsh2 & _).
    exists w2. split; [done|]. rewrite Hsh2.
    assert (Hlast : list.last (history (state w)) = Some st).
    { rewrite Hh1, Hi1 in Hst.
      replace (Z.of_nat (length (history (state w))) - 1)%Z
        with (Z.of_nat (length (history (state w)) - 1)) in Hst by lia.
      rewrite at_index_nat, lookup_app_l in Hst by lia.
      rewrite last_lookup.
      by replace (pred (length (history (state w))))
        with (length (history (state w)) - 1) by lia. }
    rewrite Hlast in Hlast0. injection Hlast0 as <-.
    apply (stored_step e w w1 st Hinv Hstep). by apply last_Some_elem_of.
  - intros Hnil. rewrite Hnil in Hi1. simpl in Hi1.
    assert (Hd : undoDisabled (state w1) = true).
    { unfold undoDisabled. rewrite Hi1. reflexivity. }
    split; [done|]. simpl. unfold undo. rewrite Hi1. simpl.
    by rewrite inv_commit_id.
Qed.

Lemma undo_shows_the_snapshot_before_the_edit_witness :
  (reachable oneRectangle ∧ edits ClickAddCircle oneRectangle ∧
   ∃ st w1 w2, list.last (history (state oneRectangle)) = Some st ∧
               stored oneRectangle st = [newRect] ∧
               step ClickAddCircle oneRectangle = Some w1 ∧
               step ClickUndo w1 = Some w2 ∧ shapes w2 = [newRect]) ∧
  (∃ w0, step ImageLoad (mount true) = Some w0 ∧
         edits ClickAddRectangle w0 ∧ history (state w0) = [] ∧
         ∃ w1, step ClickAddRectangle w0 = Some w1 ∧
               step ClickUndo w1 = Some w1).
Proof.
  assert (Hr : reachable oneRectangle)
    by reach [ImageLoad; ClickAddRectangle].
  assert (He : edits ClickAddCircle oneRectangle)
    by (split; [vm_compute; reflexivity | exact I]).
  split.
  - destruct (undo_shows_the_snapshot_before_the_edit
                oneRectangle ClickAddCircle Hr He) as (w1 & H1 & H2 & _).
    destruct (list.last (history (state oneRectangle))) as [st|] eqn:E;
      [|vm_compute in E; discriminate E].
    destruct (H2 st eq_refl) as (w2 & H3 & H4).
    assert (Hst : stored oneRectangle st = [newRect]).
    { vm_compute in E. injection E as <-. vm_compute. reflexivity. }
    split; [exact Hr|]. split; [exact He|].
    exists st, w1, w2. split; [reflexivity|]. split; [exact Hst|].
    split; [exact H1|]. split; [exact H3|].
    rewrite H4. exact Hst.
  - exists (default (mount true) (step ImageLoad (mount true))).
    set (w0 := default (mount true) (step ImageLoad (mount true))).
    assert (Hr0 : reachable w0) by reach [ImageLoad].
    assert (He0 : edits ClickAddRectangle w0)
      by (split; [vm_compute; reflexivity | exact I]).
    assert (Hn0 : history (state w0) = []) by (vm_compute; reflexivity).
    destruct (undo_shows_the_snapshot_before_the_edit
                w0 ClickAddRectangle Hr0 He0) as (w1 & H1 & _ & H2).
    split; [vm_compute; reflexivity|]. split; [exact He0|].
    split; [exact Hn0|]. exists w1. split; [exact H1|].
    exact (proj2 (H2 Hn0)).
Defined.
